(** * Persistent list, association map and layered map of plist-rs

    Shallow embedding of [src/list.rs], [src/map.rs], [src/hammer_map.rs]
    (and of its token-for-token copy [src/flail_map.rs]).  [src/chain_map.rs]
    is not modelled: it is not a module of the crate and does not compile
    (its iterator reads a field [self.iterator] the struct does not have).

    - [Map<K, V>] only ever reads its [List<(K, V)>] through the list
      iterator, so in the pure layer a map is the front-to-back sequence the
      list iterator yields ([entries]); the heap layer at the end of the file
      models the [Rc] cons cells themselves and relates the two.
    - A [HashMap] (the head of a layered map, and the tables built by
      [collect]) is the list of its entries in its iteration order; its keys
      are pairwise distinct.  A [HashSet<&K>] is the list of its elements.
    - Panics ([expect], [usize] underflow) are the [Panic] case of
      [outcome]. *)

From Stdlib Require Import String Ascii List Arith Lia Bool.
From Stdlib Require Import Sorting.Sorted.
Import ListNotations.
Open Scope list_scope.
Open Scope string_scope.

(** Decidable equality of keys and values ([Eq] / [PartialEq]). *)
Class EqDec (A : Type) := eq_dec : forall a b : A, {a = b} + {a <> b}.

#[export] Instance nat_EqDec : EqDec nat := Nat.eq_dec.

#[export] Instance prod_EqDec {A B} `{EqDec A} `{EqDec B} : EqDec (A * B).
Proof. intros [a b] [a' b']; destruct (eq_dec a a'), (eq_dec b b'); [left|right..]; congruence. Defined.

Definition eqb {A} `{EqDec A} (a b : A) : bool :=
  if eq_dec a b then true else false.

(** Result of a Rust computation: a value, or a panic with its message. *)
Inductive outcome (A : Type) : Type :=
| Ok (a : A)
| Panic (msg : string).
Arguments Ok {A} a.
Arguments Panic {A} msg.

Definition bind {A B} (o : outcome A) (f : A -> outcome B) : outcome B :=
  match o with
  | Ok a => f a
  | Panic m => Panic m
  end.

(** [usize] subtraction, which panics on underflow. *)
Definition usize_sub (a b : nat) : outcome nat :=
  if Nat.leb b a then Ok (a - b) else Panic "attempt to subtract with overflow".

(** [{:?}] of a [usize]: its decimal digits. *)
Definition digit (d : nat) : string := String (ascii_of_nat (48 + d)) EmptyString.

Fixpoint decimal_aux (fuel n : nat) (acc : string) : string :=
  match fuel with
  | 0 => acc
  | S f =>
      let acc' := digit (n mod 10) ++ acc in
      if Nat.ltb n 10 then acc' else decimal_aux f (n / 10) acc'
  end.

Definition usize_debug (n : nat) : string := decimal_aux (S n) n "".

Section Maps.
Context {K V : Type} `{EqDec K} `{EqDec V}.

(** ** HashSet<&K> as used by the iterators and by [len] *)

Definition set_contains (s : list K) (k : K) : bool := existsb (eqb k) s.

Definition set_insert (k : K) (s : list K) : list K :=
  if set_contains s k then s else k :: s.

(** ** HashMap<K, V> *)

Definition HashMap := list (K * V).

(** [HashMap::get]: the entry of that key, if any. *)
Fixpoint hashmap_get (h : HashMap) (k : K) : option V :=
  match h with
  | [] => None
  | (k', v) :: t => if eqb k' k then Some v else hashmap_get t k
  end.

(** [HashMap::insert]: replaces the value of an existing key, else adds. *)
Fixpoint hashmap_insert (k : K) (v : V) (h : HashMap) : HashMap :=
  match h with
  | [] => [(k, v)]
  | (k', v') :: t => if eqb k' k then (k', v) :: t else (k', v') :: hashmap_insert k v t
  end.

(** [Iterator::collect::<HashMap<_, _>>]. *)
Definition hashmap_collect (l : list (K * V)) : HashMap :=
  fold_left (fun h '(k, v) => hashmap_insert k v h) l [].

(** ** Map<K, V> (src/map.rs) *)

Record Map := Map_ { entries : list (K * V) }.

Definition map_new : Map := Map_ [].

(** [Map::get]: [find_map] over the list iterator. *)
Fixpoint find_key (l : list (K * V)) (k : K) : option V :=
  match l with
  | [] => None
  | (other_key, value) :: t => if eqb other_key k then Some value else find_key t k
  end.

Definition map_get (m : Map) (k : K) : option V := find_key (entries m) k.

(** [Map::insert]: [push_front] of the pair. *)
Definition map_insert (m : Map) (k : K) (v : V) : Map := Map_ ((k, v) :: entries m).

(** [Map::insert_many]: [push_front_many], a [push_front] per item in order. *)
Definition map_insert_many (m : Map) (items : list (K * V)) : Map :=
  fold_left (fun m '(k, v) => map_insert m k v) items m.

(** [MapIterator::next] run to exhaustion from a given [set]. *)
Fixpoint dedup (set : list K) (l : list (K * V)) : list (K * V) :=
  match l with
  | [] => []
  | (key, value) :: t =>
      if set_contains set key then dedup set t
      else (key, value) :: dedup (set_insert key set) t
  end.

Definition map_iter (m : Map) : list (K * V) := dedup [] (entries m).

Definition map_keys (m : Map) : list K := map fst (map_iter m).

Definition map_values (m : Map) : list V := map snd (map_iter m).

(** [len]: the size of the [HashSet] filled with the keys. *)
Definition set_of (ks : list K) : list K := fold_left (fun s k => set_insert k s) ks [].

Definition map_len (m : Map) : nat := length (set_of (map_keys m)).

(** [is_empty]: the underlying list's [is_empty]. *)
Definition map_is_empty (m : Map) : bool :=
  match entries m with [] => true | _ => false end.

Definition map_contains_key (m : Map) (k : K) : bool := existsb (fun o => eqb o k) (map_keys m).

(** [Index for Map]: [self.get(key).expect("existent key")]. *)
Definition map_index (m : Map) (k : K) : outcome V :=
  match map_get m k with
  | Some v => Ok v
  | None => Panic "existent key"
  end.

(** [PartialEq for Map]: collect [self] into a [HashMap], then check every
    pair of [other] against it (with early [return false]). *)
Definition pairs_covered (set : HashMap) (other : list (K * V)) : bool :=
  forallb (fun '(key, value) =>
             match hashmap_get set key with
             | Some other_value => eqb value other_value
             | None => false
             end) other.

Definition map_eq (self other : Map) : bool :=
  pairs_covered (hashmap_collect (map_iter self)) (map_iter other).

(** [FromIterator for Map]: [Self::new().insert_many(iterator)]. *)
Definition map_from_iter (items : list (K * V)) : Map := map_insert_many map_new items.

(** ** HammerMap<K, V> (src/hammer_map.rs)

    [src/flail_map.rs] is token for token the same file with [HammerMap]
    renamed to [FlailMap]; this model stands for both. *)

Record HammerMap := HammerMap_ { chain : Map; head : HashMap }.

Definition hammer_new (h : HashMap) : HammerMap := HammerMap_ map_new h.

Definition hammer_insert (m : HammerMap) (k : K) (v : V) : HammerMap :=
  HammerMap_ (map_insert (chain m) k v) (head m).

Definition hammer_insert_many (m : HammerMap) (items : list (K * V)) : HammerMap :=
  HammerMap_ (map_insert_many (chain m) items) (head m).

(** [self.chain.get(key).or_else(|| self.head.get(key))]. *)
Definition hammer_get (m : HammerMap) (k : K) : option V :=
  match map_get (chain m) k with
  | Some v => Some v
  | None => hashmap_get (head m) k
  end.

(** [HammerMapIterator::next] run to exhaustion: first the chain's
    [MapIterator], then the head's [hash_map::Iter], one shared [set]. *)
Fixpoint drain_head (set : list K) (hs : list (K * V)) : list (K * V) :=
  match hs with
  | [] => []
  | (key, value) :: t =>
      if set_contains set key then drain_head set t
      else (key, value) :: drain_head (set_insert key set) t
  end.

Fixpoint drain_chain (set : list K) (cs hs : list (K * V)) : list (K * V) :=
  match cs with
  | [] => drain_head set hs
  | (key, value) :: t =>
      if set_contains set key then drain_chain set t hs
      else (key, value) :: drain_chain (set_insert key set) t hs
  end.

Definition hammer_iter (m : HammerMap) : list (K * V) :=
  drain_chain [] (map_iter (chain m)) (head m).

Definition hammer_keys (m : HammerMap) : list K := map fst (hammer_iter m).

Definition hammer_values (m : HammerMap) : list V := map snd (hammer_iter m).

Definition hammer_len (m : HammerMap) : nat := length (set_of (hammer_keys m)).

Definition hammer_is_empty (m : HammerMap) : bool :=
  map_is_empty (chain m) && match head m with [] => true | _ => false end.

Definition hammer_contains_key (m : HammerMap) (k : K) : bool :=
  existsb (fun o => eqb o k) (hammer_keys m).

Definition hammer_index (m : HammerMap) (k : K) : outcome V :=
  match hammer_get m k with
  | Some v => Ok v
  | None => Panic "existent key"
  end.

Definition hammer_eq (self other : HammerMap) : bool :=
  pairs_covered (hashmap_collect (hammer_iter self)) (hammer_iter other).

(** [FromIterator for HammerMap]: [Self::new(iterator.into_iter().collect())],
    the items collected into the head table. *)
Definition hammer_from_iter (items : list (K * V)) : HammerMap :=
  hammer_new (hashmap_collect items).

(** ** Debug formatting *)

Context (debug_K : K -> string) (debug_V : V -> string).

(** The loop of [Debug for HammerMap]: write the pair,
    then [", "] when [index < self.len() - 1]. *)
Fixpoint fmt_entries (items : list (K * V)) (index len : nat) : outcome string :=
  match items with
  | [] => Ok ""
  | (key, value) :: t =>
      bind (usize_sub len 1) (fun last =>
      bind (fmt_entries t (S index) len) (fun rest =>
      Ok (debug_K key ++ ": " ++ debug_V value
          ++ (if Nat.ltb index last then ", " else "") ++ rest)))
  end.

Definition hammer_debug (m : HammerMap) : outcome string :=
  bind (fmt_entries (hammer_iter m) 0 (hammer_len m)) (fun body =>
  Ok ("{" ++ body ++ "}")).

(** [#[derive(Debug)]] on [Map], [List] and [Cons]: the raw cons chain
    ([Rc] and [Option] print through), including shadowed pairs. *)
Fixpoint cons_debug (l : list (K * V)) : string :=
  match l with
  | [] => "None"
  | (k, v) :: t =>
      "Some(Cons { head: (" ++ debug_K k ++ ", " ++ debug_V v ++ "), tail: "
      ++ cons_debug t ++ " })"
  end.

Definition map_debug (m : Map) : string :=
  "Map(List { cons: " ++ cons_debug (entries m) ++ ", size: "
  ++ usize_debug (List.length (entries m)) ++ " })".

(** The listing the spec describes: [k: v] items joined by [", "]. *)
Fixpoint join_pairs (l : list (K * V)) : string :=
  match l with
  | [] => ""
  | [(k, v)] => debug_K k ++ ": " ++ debug_V v
  | (k, v) :: t => debug_K k ++ ": " ++ debug_V v ++ ", " ++ join_pairs t
  end.

End Maps.

Arguments HashMap : clear implicits.
Arguments Map : clear implicits.
Arguments HammerMap : clear implicits.

Open Scope list_scope.

(** [i] is the position of [kv] in [l], and no earlier pair has its key. *)
Definition first_at {K V : Type} (l : list (K * V)) (i : nat) (kv : K * V) : Prop :=
  nth_error l i = Some kv /\
  forall j kv', j < i -> nth_error l j = Some kv' -> fst kv' <> fst kv.

(** ** List<T> with its shared cons cells (src/list.rs)

    The [Rc<Cons<T>>] cells allocated so far form a heap, indexed by
    allocation order; a [List] handle is an optional address and the cached
    [size].  Cells are never mutated and never freed while a handle reaches
    them, so the heap only grows.  [size + 1] is taken in [nat]: a [usize]
    wrap would need 2^64 live cells. *)

Section Heap.
Context {T : Type}.

Record Cons := Cons_ { cons_head : T; cons_tail : option nat }.

Definition Heap := list Cons.

Record List := List_ { cons : option nat; size : nat }.

Definition list_new : List := List_ None 0.

Definition list_len (l : List) : nat := size l.

Definition list_is_empty (l : List) : bool := Nat.eqb (size l) 0.

(** [Clone for List]: copies the [Rc] and the size. *)
Definition list_clone (l : List) : List := List_ (cons l) (size l).

(** [push_front]: one new cell whose tail is the old head. *)
Definition push_front (h : Heap) (l : List) (x : T) : Heap * List :=
  (h ++ [Cons_ x (cons l)], List_ (Some (length h)) (size l + 1)).

Definition push_front_many (h : Heap) (l : List) (xs : list T) : Heap * List :=
  fold_left (fun '(h, l) x => push_front h l x) xs (h, list_clone l).

(** [FromIterator for List]: [push_front] of each item onto [List::new()]. *)
Definition list_from_iter (h : Heap) (xs : list T) : Heap * List :=
  fold_left (fun '(h, l) x => push_front h l x) xs (h, list_new).

(** [pop_front]: the tail with [size - 1] ([usize], panics on underflow);
    [List::new()] on the empty list.  An address with no cell cannot come
    from an [Rc]; it is a panic here. *)
Definition pop_front (h : Heap) (l : List) : outcome List :=
  match cons l with
  | Some p =>
      match nth_error h p with
      | Some c => bind (usize_sub (size l) 1) (fun n => Ok (List_ (cons_tail c) n))
      | None => Panic "dangling Rc"
      end
  | None => Ok list_new
  end.

(** [ListIterator]: follows the tails; the chain from an address is never
    longer than the heap, which bounds the walk. *)
Fixpoint read (fuel : nat) (h : Heap) (p : option nat) : list T :=
  match p with
  | None => []
  | Some i =>
      match fuel with
      | 0 => []
      | S f =>
          match nth_error h i with
          | Some c => cons_head c :: read f h (cons_tail c)
          | None => []
          end
      end
  end.

Definition list_iter (h : Heap) (l : List) : list T := read (length h) h (cons l).

Definition list_contains `{EqDec T} (h : Heap) (l : List) (x : T) : bool :=
  existsb (fun o => eqb o x) (list_iter h l).

(** [#[derive(PartialEq)]] on [List] and [Cons] ([Option] and [Rc] compare
    what they hold): the two chains cell by cell, head then tail, then the
    [size] fields.  The walk is bounded like [read]. *)
Fixpoint cons_eqb `{EqDec T} (fuel : nat) (h : Heap) (p q : option nat) : bool :=
  match p, q with
  | None, None => true
  | Some i, Some j =>
      match fuel with
      | 0 => true
      | S f =>
          match nth_error h i, nth_error h j with
          | Some c, Some d => eqb (cons_head c) (cons_head d) && cons_eqb f h (cons_tail c) (cons_tail d)
          | _, _ => false
          end
      end
  | _, _ => false
  end.

Definition list_eqb `{EqDec T} (h : Heap) (l1 l2 : List) : bool :=
  cons_eqb (length h) h (cons l1) (cons l2) && Nat.eqb (size l1) (size l2).

(** [#[derive(PartialOrd, Ord)]] on [List] and [Cons], for an [Ord] on [T]
    given by [cmpT]: [Option] puts [None] first; [Cons] compares [head],
    then [tail]; [List] compares [cons], then [size]. *)
Fixpoint cons_cmp (cmpT : T -> T -> comparison) (fuel : nat) (h : Heap) (p q : option nat) : comparison :=
  match p, q with
  | None, None => Eq
  | None, Some _ => Lt
  | Some _, None => Gt
  | Some i, Some j =>
      match fuel with
      | 0 => Eq
      | S f =>
          match nth_error h i, nth_error h j with
          | Some c, Some d =>
              match cmpT (cons_head c) (cons_head d) with
              | Eq => cons_cmp cmpT f h (cons_tail c) (cons_tail d)
              | r => r
              end
          | _, _ => Eq
          end
      end
  end.

Definition list_cmp (cmpT : T -> T -> comparison) (h : Heap) (l1 l2 : List) : comparison :=
  match cons_cmp cmpT (length h) h (cons l1) (cons l2) with
  | Eq => Nat.compare (size l1) (size l2)
  | r => r
  end.

(** Reference order: lexicographic comparison of two sequences, a proper
    prefix first. *)
Fixpoint lex_cmp (cmpT : T -> T -> comparison) (a b : list T) : comparison :=
  match a, b with
  | [], [] => Eq
  | [], _ :: _ => Lt
  | _ :: _, [] => Gt
  | x :: a', y :: b' =>
      match cmpT x y with
      | Eq => lex_cmp cmpT a' b'
      | r => r
      end
  end.

(** Every tail points to an older cell. *)
Definition heap_wf (h : Heap) : Prop :=
  forall i c j, nth_error h i = Some c -> cons_tail c = Some j -> j < i.

Definition ptr_valid (h : Heap) (p : option nat) : Prop :=
  match p with None => True | Some i => i < length h end.

(** The cached [size] is the length of the chain the handle reaches. *)
Definition list_inv (h : Heap) (l : List) : Prop := ptr_valid h (cons l) /\ size l = length (list_iter h l).

(** The handles the program can build: from [new], [push_front],
    [push_front_many], [pop_front], [clone] and [from_iter], applied to
    handles it built before, in one growing heap. *)
Inductive reachable : Heap -> list List -> Prop :=
| reach_init : reachable [] []
| reach_new h ls : reachable h ls -> reachable h (list_new :: ls)
| reach_clone h ls l : reachable h ls -> In l ls -> reachable h (list_clone l :: ls)
| reach_push h ls l x : reachable h ls -> In l ls ->
    reachable (fst (push_front h l x)) (snd (push_front h l x) :: ls)
| reach_push_many h ls l xs : reachable h ls -> In l ls ->
    reachable (fst (push_front_many h l xs)) (snd (push_front_many h l xs) :: ls)
| reach_pop h ls l l' : reachable h ls -> In l ls -> pop_front h l = Ok l' ->
    reachable h (l' :: ls)
| reach_from_iter h ls xs : reachable h ls ->
    reachable (fst (list_from_iter h xs)) (snd (list_from_iter h xs) :: ls).

End Heap.

Arguments Heap : clear implicits.
Arguments Cons : clear implicits.

(** Maps over the heap: a [Map] is its [List<(K, V)>] handle; a
    [HammerMap] is that handle plus the address of its [Rc<HashMap>] in
    the store of head tables. *)
Section HeapMaps.
Context {K V : Type} `{EqDec K}.

Definition map_view (h : Heap (K * V)) (l : List) : Map K V := Map_ (list_iter h l).

Record HammerMapH := HammerMapH_ { hchain : List; hhead : nat }.

Definition hammer_view (h : Heap (K * V)) (hs : list (HashMap K V)) (m : HammerMapH) : HammerMap K V :=
  HammerMap_ (map_view h (hchain m)) (nth (hhead m) hs []).

(** [HammerMap::new]: the head table moves into a new [Rc]. *)
Definition hammerH_new (hs : list (HashMap K V)) (t : HashMap K V) : list (HashMap K V) * HammerMapH :=
  (hs ++ [t], HammerMapH_ list_new (length hs)).

(** [HammerMap::insert]: [Map::insert] on the chain, [Rc::clone] of the head. *)
Definition hammerH_insert (h : Heap (K * V)) (hs : list (HashMap K V)) (m : HammerMapH) (k : K) (v : V)
  : Heap (K * V) * list (HashMap K V) * HammerMapH :=
  let '(h', c) := push_front h (hchain m) (k, v) in (h', hs, HammerMapH_ c (hhead m)).

End HeapMaps.

(** Inputs of the heap-level examples. *)
Definition heap1 : Heap (nat * nat) := fst (push_front [] list_new (1, 1)).
Definition list1 : List := snd (push_front ([] : Heap (nat * nat)) list_new (1, 1)).

(** Inputs of the list examples of the crate's [ord] and [from_iter] tests:
    [1], [2], [1; 1] and [1; 2] built in one heap, then [from_iter [1, 2]]
    and [new().push_front(1).push_front(2)]. *)
Definition ordA := push_front ([] : Heap nat) list_new 1.
Definition ordB := push_front (fst ordA) list_new 2.
Definition ordC := push_front (fst ordB) (snd ordA) 1.
Definition ordD := push_front (fst ordC) (snd ordB) 1.
Definition iterE := list_from_iter (fst ordD) [1; 2].
Definition iterF := push_front (fst iterE) (snd ordA) 2.

(** * Equality of keys *)

Lemma eqb_true {A} `{EqDec A} (a b : A) : eqb a b = true <-> a = b.
Proof. unfold eqb; destruct (eq_dec a b); split; congruence. Qed.

Lemma eqb_refl {A} `{EqDec A} (a : A) : eqb a a = true.
Proof. apply eqb_true; reflexivity. Qed.

Lemma eqb_false_iff {A} `{EqDec A} (a b : A) : eqb a b = false <-> a <> b.
Proof. rewrite <- eqb_true; destruct (eqb a b); split; congruence. Qed.

Ltac case_eqb a b :=
  let E := fresh "E" in
  destruct (eqb a b) eqn:E;
  [apply eqb_true in E; subst | apply eqb_false_iff in E].

(** ** Concrete checks, mirroring the crate's unit tests *)

Abbreviation nmap := (Map nat nat).

Example map_get_test :
  let m := map_insert (map_insert (map_new : nmap) 1 2) 3 4 in
  map_get m 1 = Some 2 /\ map_get m 3 = Some 4 /\ map_get m 4 = None.
Proof. repeat split. Qed.

Example map_len_test :
  map_len (map_insert (map_insert (map_new : nmap) 1 1) 1 1) = 1 /\
  map_len (map_insert (map_insert (map_new : nmap) 1 1) 2 2) = 2.
Proof. split; reflexivity. Qed.

Example hammer_debug_test :
  hammer_debug usize_debug usize_debug
    (hammer_insert_many (hammer_new ([] : HashMap nat nat)) [(1, 2); (3, 4); (5, 6)])
  = Ok "{5: 6, 3: 4, 1: 2}".
Proof. reflexivity. Qed.

Example hammer_len_test :
  hammer_len (hammer_insert (hammer_new [(1, 1)]) 1 1) = 1 /\
  hammer_len (hammer_insert (hammer_new [(1, 1)]) 2 2) = 2.
Proof. split; reflexivity. Qed.

Example map_debug_test :
  map_debug usize_debug usize_debug (map_insert (map_new : nmap) 1 2)
  = "Map(List { cons: Some(Cons { head: (1, 2), tail: None }), size: 1 })".
Proof. reflexivity. Qed.


(** * Facts about the iterators *)


Section Facts.
Context {K V : Type} `{EqDec K} `{EqDec V}.

Lemma set_contains_In (s : list K) k : set_contains s k = true <-> In k s.
Proof.
  unfold set_contains; rewrite existsb_exists; split.
  - intros [x [Hx Heq]]; apply eqb_true in Heq; subst; exact Hx.
  - intros Hk; exists k; split; [exact Hk | apply eqb_refl].
Qed.

Lemma set_contains_false (s : list K) k : set_contains s k = false <-> ~ In k s.
Proof.
  rewrite <- set_contains_In; destruct (set_contains s k); split; congruence.
Qed.

Lemma set_insert_fresh (s : list K) k : ~ In k s -> set_insert k s = k :: s.
Proof. intros Hk; unfold set_insert; apply set_contains_false in Hk; now rewrite Hk. Qed.

(** [MapIterator] never yields a key of its starting [set]. *)
Lemma dedup_fresh (l : list (K * V)) : forall s k,
  In k (map fst (dedup s l)) -> ~ In k s.
Proof.
  induction l as [|[k' v'] t IH]; simpl; intros s k Hk; [contradiction|].
  destruct (set_contains s k') eqn:Hc; [now apply (IH s)|].
  simpl in Hk; destruct Hk as [<-|Hk].
  - now apply set_contains_false.
  - intros Hs; apply (IH _ _ Hk); unfold set_insert; rewrite Hc; now right.
Qed.

Lemma dedup_nodup (l : list (K * V)) : forall s, NoDup (map fst (dedup s l)).
Proof.
  induction l as [|[k' v'] t IH]; simpl; intros s; [constructor|].
  destruct (set_contains s k') eqn:Hc; [apply IH|].
  simpl; constructor; [|apply IH].
  intros Hin; apply (dedup_fresh _ _ _ Hin).
  unfold set_insert; rewrite Hc; now left.
Qed.

Lemma find_key_dedup (l : list (K * V)) : forall s k,
  find_key (dedup s l) k = if set_contains s k then None else find_key l k.
Proof.
  induction l as [|[k' v'] t IH]; simpl; intros s k.
  - now destruct (set_contains s k).
  - destruct (set_contains s k') eqn:Hc.
    + rewrite IH; case_eqb k' k; [now rewrite Hc | reflexivity].
    + simpl; rewrite IH; unfold set_insert; rewrite Hc.
      case_eqb k' k; [now rewrite Hc|].
      unfold set_contains; simpl.
      replace (eqb k k') with false; [reflexivity|].
      symmetry; apply eqb_false_iff; congruence.
Qed.

Lemma find_key_Some_In (l : list (K * V)) k v : find_key l k = Some v -> In (k, v) l.
Proof.
  induction l as [|[k' v'] t IH]; simpl; [discriminate|].
  case_eqb k' k; [intros [= ->]; now left | intros; right; auto].
Qed.

Lemma find_key_None (l : list (K * V)) k : find_key l k = None <-> ~ In k (map fst l).
Proof.
  induction l as [|[k' v'] t IH]; simpl; [tauto|].
  case_eqb k' k; [split; [discriminate | tauto]|].
  rewrite IH; intuition.
Qed.

Lemma In_find_key_Some (l : list (K * V)) k : In k (map fst l) -> exists v, find_key l k = Some v.
Proof.
  intros Hk; destruct (find_key l k) as [v|] eqn:E; [eauto|].
  apply find_key_None in E; contradiction.
Qed.

Lemma find_key_nodup (l : list (K * V)) k v :
  NoDup (map fst l) -> In (k, v) l -> find_key l k = Some v.
Proof.
  induction l as [|[k' v'] t IH]; simpl; [contradiction|].
  intros Hnd Hin; inversion Hnd as [|? ? Hnot Hnd']; subst.
  case_eqb k' k.
  - destruct Hin as [[= ->]|Hin]; [reflexivity|].
    exfalso; apply Hnot, in_map_iff; now exists (k, v).
  - destruct Hin as [[= -> ->]|Hin]; [congruence|auto].
Qed.

Lemma dedup_In (l : list (K * V)) s k v :
  In (k, v) (dedup s l) <-> ~ In k s /\ find_key l k = Some v.
Proof.
  split.
  - intros Hin; assert (Hs : ~ In k s).
    { apply (dedup_fresh l); apply in_map_iff; now exists (k, v). }
    split; [exact Hs|].
    pose proof (find_key_nodup _ _ _ (dedup_nodup l s) Hin) as Hf.
    rewrite find_key_dedup in Hf; apply set_contains_false in Hs; now rewrite Hs in Hf.
  - intros [Hs Hf].
    assert (Hd : find_key (dedup s l) k = Some v).
    { rewrite find_key_dedup; apply set_contains_false in Hs; now rewrite Hs. }
    now apply find_key_Some_In.
Qed.

Lemma set_of_aux (ks s : list K) :
  NoDup ks -> (forall k, In k ks -> ~ In k s) ->
  length (fold_left (fun s k => set_insert k s) ks s) = length ks + length s.
Proof.
  revert s; induction ks as [|k t IH]; simpl; intros s Hnd Hfr; [reflexivity|].
  inversion Hnd as [|? ? Hk Hnd']; subst.
  rewrite set_insert_fresh by (apply Hfr; now left).
  rewrite IH; simpl; [lia | exact Hnd'|].
  intros k' Hk' [<-|Hs]; [contradiction | now apply (Hfr k'); [right|]].
Qed.

(** [len] counts the [HashSet] of the keys: on distinct keys, their number. *)
Lemma set_of_length (ks : list K) : NoDup ks -> length (set_of ks) = length ks.
Proof. intros Hnd; unfold set_of; rewrite set_of_aux; simpl; auto; lia. Qed.

Lemma map_len_iter (m : Map K V) : map_len m = length (map_iter m).
Proof.
  unfold map_len, map_keys; rewrite set_of_length by apply dedup_nodup.
  apply length_map.
Qed.

Lemma drain_head_dedup (hs : list (K * V)) : forall s, drain_head s hs = dedup s hs.
Proof.
  induction hs as [|[k v] t IH]; simpl; intros s; [reflexivity|].
  now rewrite !IH.
Qed.

Lemma drain_chain_dedup (cs hs : list (K * V)) : forall s,
  drain_chain s cs hs = dedup s (cs ++ hs).
Proof.
  induction cs as [|[k v] t IH]; simpl; intros s; [apply drain_head_dedup|].
  now rewrite !IH.
Qed.

Lemma hammer_iter_dedup (m : HammerMap K V) :
  hammer_iter m = dedup [] (map_iter (chain m) ++ head m).
Proof. apply drain_chain_dedup. Qed.

Lemma hammer_keys_nodup (m : HammerMap K V) : NoDup (hammer_keys m).
Proof. unfold hammer_keys; rewrite hammer_iter_dedup; apply dedup_nodup. Qed.

Lemma hammer_len_iter (m : HammerMap K V) : hammer_len m = length (hammer_iter m).
Proof.
  unfold hammer_len; rewrite set_of_length by apply hammer_keys_nodup.
  unfold hammer_keys; apply length_map.
Qed.

Lemma find_key_app (l1 l2 : list (K * V)) k :
  find_key (l1 ++ l2) k = match find_key l1 k with Some v => Some v | None => find_key l2 k end.
Proof.
  induction l1 as [|[k' v'] t IH]; simpl; [reflexivity|].
  destruct (eqb k' k); [reflexivity | exact IH].
Qed.

Lemma map_get_iter (m : Map K V) k : find_key (map_iter m) k = map_get m k.
Proof. unfold map_iter; rewrite find_key_dedup; reflexivity. Qed.

Lemma hammer_iter_In (m : HammerMap K V) k v :
  In (k, v) (hammer_iter m) <-> hammer_get m k = Some v.
Proof.
  rewrite hammer_iter_dedup, dedup_In, find_key_app, map_get_iter.
  unfold hammer_get; simpl; tauto.
Qed.

Lemma map_iter_In (m : Map K V) k v : In (k, v) (map_iter m) <-> map_get m k = Some v.
Proof. unfold map_iter; rewrite dedup_In; simpl; tauto. Qed.

(** On a head with distinct keys, the head part of [HammerMapIterator] is
    the head minus the keys the chain yielded. *)
Lemma drain_head_filter (hs : list (K * V)) : forall s,
  NoDup (map fst hs) ->
  drain_head s hs = filter (fun kv => negb (set_contains s (fst kv))) hs.
Proof.
  induction hs as [|[k v] t IH]; simpl; intros s Hnd; [reflexivity|].
  inversion Hnd as [|? ? Hk Hnd']; subst.
  destruct (set_contains s k) eqn:Hc; simpl; [now apply IH|].
  f_equal; rewrite IH by exact Hnd'.
  apply filter_ext_in; intros [k' v'] Hin; simpl.
  unfold set_insert; rewrite Hc; unfold set_contains; simpl.
  replace (eqb k' k) with false; [reflexivity|].
  symmetry; apply eqb_false_iff; intros ->; apply Hk, in_map_iff; now exists (k, v').
Qed.

Lemma drain_chain_filter (cs hs : list (K * V)) : forall s,
  NoDup (map fst cs) -> (forall k, In k (map fst cs) -> ~ In k s) -> NoDup (map fst hs) ->
  drain_chain s cs hs
  = cs ++ filter (fun kv => negb (set_contains s (fst kv) || set_contains (map fst cs) (fst kv))) hs.
Proof.
  induction cs as [|[k v] t IH]; simpl; intros s Hnd Hfr Hh.
  - rewrite drain_head_filter by exact Hh.
    apply filter_ext; intros kv; now rewrite orb_false_r.
  - inversion Hnd as [|? ? Hk Hnd']; subst.
    assert (Hc : set_contains s k = false) by (apply set_contains_false, Hfr; now left).
    rewrite Hc; f_equal; rewrite IH; [f_equal| exact Hnd' | | exact Hh].
    + apply filter_ext; intros [k' v']; simpl.
      unfold set_insert; rewrite Hc; unfold set_contains; simpl.
      now destruct (eqb k' k), (existsb (eqb k') s), (existsb (eqb k') (map fst t)).
    + intros k' Hk'; unfold set_insert; rewrite Hc; intros [<-|Hs]; [contradiction|].
      now apply (Hfr k'); [right|].
Qed.

Lemma string_app_empty_r (x : string) : (x ++ "")%string = x.
Proof. induction x as [|c x IH]; simpl; [reflexivity | now rewrite IH]. Qed.

(** [fmt_entries] writes the separator between items, never after the last. *)
Lemma fmt_entries_join (dK : K -> string) (dV : V -> string) (items : list (K * V)) :
  forall index, fmt_entries dK dV items index (index + length items) = Ok (join_pairs dK dV items).
Proof.
  induction items as [|[k v] t IH]; intros index; simpl; [reflexivity|].
  unfold usize_sub; replace (Nat.leb 1 (index + S (length t))) with true
    by (symmetry; apply Nat.leb_le; lia); simpl.
  replace (index + S (length t)) with (S index + length t) by lia.
  rewrite IH; simpl.
  destruct t as [|kv t'].
  - simpl; rewrite (proj2 (Nat.ltb_ge index (index + 0 - 0))) by lia.
    now rewrite string_app_empty_r.
  - rewrite (proj2 (Nat.ltb_lt index (index + length (kv :: t') - 0))) by (simpl; lia).
    destruct kv; reflexivity.
Qed.

Lemma dedup_keys_In (l : list (K * V)) k : In k (map fst (dedup [] l)) <-> In k (map fst l).
Proof.
  split.
  - intros Hk; apply in_map_iff in Hk as [[k' v] [<- Hin]]; simpl.
    apply dedup_In in Hin as [_ Hf]; apply find_key_Some_In in Hf.
    apply in_map_iff; now exists (k', v).
  - intros Hk; apply In_find_key_Some in Hk as [v Hv].
    apply in_map_iff; exists (k, v); split; [reflexivity|].
    apply dedup_In; split; [intros []|exact Hv].
Qed.

Lemma Forall2_shift {A} (P Q : nat -> A -> Prop) (idxs : list nat) (l : list A) :
  (forall i x, P i x -> Q (S i) x) -> Forall2 P idxs l -> Forall2 Q (map S idxs) l.
Proof. intros HPQ HF; induction HF; simpl; constructor; auto. Qed.

Lemma sorted_shift (idxs : list nat) : StronglySorted lt idxs -> StronglySorted lt (map S idxs).
Proof.
  induction 1 as [|i t Hs IH Hf]; simpl; constructor; [exact IH|].
  apply Forall_map; eapply Forall_impl; [|exact Hf]; simpl; intros; lia.
Qed.

Lemma sorted_cons_zero (idxs : list nat) :
  StronglySorted lt idxs -> StronglySorted lt (0 :: map S idxs).
Proof.
  intros Hs; constructor; [now apply sorted_shift|].
  apply Forall_map, Forall_forall; intros; lia.
Qed.

(** [MapIterator] yields, in list order, the first occurrence of each key
    that is not in its starting [set]. *)
Lemma dedup_positions (l : list (K * V)) : forall s,
  exists idxs, StronglySorted lt idxs /\
    Forall2 (fun i kv => first_at l i kv /\ ~ In (fst kv) s) idxs (dedup s l).
Proof.
  induction l as [|[k' v'] t IH]; simpl; intros s.
  - exists []; split; constructor.
  - destruct (set_contains s k') eqn:Hc.
    + destruct (IH s) as [idxs [Hs HF]]; exists (map S idxs); split; [now apply sorted_shift|].
      revert HF; apply Forall2_shift.
      intros i [k v] [[Hn Hfirst] Hns]; simpl in *; split; [split; [exact Hn|]|exact Hns].
      intros [|j] kv' Hj Hj'; simpl in Hj'.
      * injection Hj' as <-; simpl; intros ->; apply set_contains_In in Hc; contradiction.
      * apply (Hfirst j); [lia | exact Hj'].
    + destruct (IH (set_insert k' s)) as [idxs [Hs HF]].
      exists (0 :: map S idxs); split; [now apply sorted_cons_zero|].
      constructor.
      * split; [split; [reflexivity | intros; lia]|].
        now apply set_contains_false.
      * unfold set_insert in *; rewrite Hc in *.
        revert HF; apply Forall2_shift.
        intros i [k v] [[Hn Hfirst] Hns]; simpl in *; split; [split; [exact Hn|]|tauto].
        intros [|j] kv' Hj Hj'; simpl in Hj'.
        -- injection Hj' as <-; simpl; intros ->; tauto.
        -- apply (Hfirst j); [lia | exact Hj'].
Qed.

Lemma entries_insert_many (m : Map K V) (items : list (K * V)) :
  entries (map_insert_many m items) = rev items ++ entries m.
Proof.
  revert m; induction items as [|[k v] t IH]; simpl; intros m; [reflexivity|].
  unfold map_insert_many in *; simpl; rewrite IH; simpl.
  now rewrite <- app_assoc.
Qed.

(** [collect] of pairs with distinct keys looks up like the pairs. *)
Lemma hashmap_get_insert (h : HashMap K V) k v k' :
  hashmap_get (hashmap_insert k v h) k' = if eqb k k' then Some v else hashmap_get h k'.
Proof.
  induction h as [|[k1 v1] t IH]; simpl; [reflexivity|].
  case_eqb k1 k; simpl.
  - destruct (eqb k k'); reflexivity.
  - destruct (eqb k1 k') eqn:E1; [|exact IH].
    apply eqb_true in E1; subst; replace (eqb k k') with false; [reflexivity|].
    symmetry; apply eqb_false_iff; congruence.
Qed.

Lemma hashmap_get_collect_aux (l : list (K * V)) : forall h k,
  NoDup (map fst l) ->
  hashmap_get (fold_left (fun h '(k, v) => hashmap_insert k v h) l h) k
  = match find_key l k with Some v => Some v | None => hashmap_get h k end.
Proof.
  induction l as [|[k1 v1] t IH]; simpl; intros h k Hnd; [reflexivity|].
  inversion Hnd as [|? ? Hk Hnd']; subst.
  rewrite IH by exact Hnd'; rewrite hashmap_get_insert.
  case_eqb k1 k; [|now destruct (find_key t k)].
  now rewrite (proj2 (find_key_None t k) Hk).
Qed.

Lemma hashmap_get_collect (l : list (K * V)) k :
  NoDup (map fst l) -> hashmap_get (hashmap_collect l) k = find_key l k.
Proof.
  intros Hnd; unfold hashmap_collect; rewrite hashmap_get_collect_aux by exact Hnd.
  now destruct (find_key l k).
Qed.

Lemma pairs_covered_iff (set : HashMap K V) (other : list (K * V)) :
  pairs_covered set other = true <->
  forall k v, In (k, v) other -> hashmap_get set k = Some v.
Proof.
  unfold pairs_covered; rewrite forallb_forall; split.
  - intros Hall k v Hin; specialize (Hall _ Hin); simpl in Hall.
    destruct (hashmap_get set k) as [w|]; [|discriminate].
    apply eqb_true in Hall; now subst.
  - intros Hall [k v] Hin; rewrite (Hall _ _ Hin); apply eqb_refl.
Qed.

(** [PartialEq for Map] holds exactly when every live pair of [other] is a
    live pair of [self]: a one-way inclusion. *)
Lemma map_eq_subset (a b : Map K V) :
  map_eq a b = true <-> forall k v, map_get b k = Some v -> map_get a k = Some v.
Proof.
  unfold map_eq; rewrite pairs_covered_iff; split; intros Hall k v Hv.
  - apply map_iter_In in Hv; specialize (Hall _ _ Hv).
    rewrite hashmap_get_collect in Hall by apply dedup_nodup.
    now rewrite map_get_iter in Hall.
  - apply map_iter_In in Hv; rewrite hashmap_get_collect by apply dedup_nodup.
    rewrite map_get_iter; auto.
Qed.

Lemma hammer_eq_subset (a b : HammerMap K V) :
  hammer_eq a b = true <-> forall k v, hammer_get b k = Some v -> hammer_get a k = Some v.
Proof.
  unfold hammer_eq; rewrite pairs_covered_iff; split; intros Hall k v Hv.
  - apply hammer_iter_In in Hv; specialize (Hall _ _ Hv).
    rewrite hashmap_get_collect in Hall by apply hammer_keys_nodup.
    apply find_key_Some_In in Hall; now apply hammer_iter_In.
  - apply hammer_iter_In in Hv; rewrite hashmap_get_collect by apply hammer_keys_nodup.
    apply find_key_nodup; [apply hammer_keys_nodup|]; now apply hammer_iter_In, Hall.
Qed.

End Facts.

(** * The claims *)

Section Claims.
Context {K V : Type} `{EqDec K} `{EqDec V}.

(** C3 (as amended): the layered map's [Debug] prints exactly its
    deduplicated pairs, in its iteration order, as [{k: v, k: v}]; the
    association map's derived [Debug] prints its raw cons chain. *)
Theorem debug_format (dK : K -> string) (dV : V -> string) (hm : HammerMap K V) (m : Map K V) :
  hammer_debug dK dV hm = Ok ("{" ++ join_pairs dK dV (hammer_iter hm) ++ "}")%string /\
  NoDup (hammer_keys hm) /\
  (forall k v, In (k, v) (hammer_iter hm) <-> hammer_get hm k = Some v) /\
  map_debug dK dV m =
    ("Map(List { cons: " ++ cons_debug dK dV (entries m) ++ ", size: "
     ++ usize_debug (length (entries m)) ++ " })")%string.
Proof.
  split; [|split; [apply hammer_keys_nodup | split; [apply hammer_iter_In | reflexivity]]].
  unfold hammer_debug; rewrite hammer_len_iter.
  now rewrite <- (Nat.add_0_l (length (hammer_iter hm))), (fmt_entries_join dK dV (hammer_iter hm) 0).
Qed.

(** C4: the layered map's [get] returns the overlay's value when the key
    has an overlay entry, else the head's value, else [None]; an insert
    over a head entry shadows it. *)
Theorem hammer_get_overlay_then_head (m : HammerMap K V) (k : K) (v1 v2 : V)
  (Hhead : NoDup (map fst (head m))) :
  (In k (map fst (entries (chain m))) ->
     exists v, map_get (chain m) k = Some v /\ hammer_get m k = Some v) /\
  (~ In k (map fst (entries (chain m))) -> In (k, v1) (head m) -> hammer_get m k = Some v1) /\
  (~ In k (map fst (entries (chain m))) -> ~ In k (map fst (head m)) -> hammer_get m k = None) /\
  (In (k, v1) (head m) ->
     hammer_get (hammer_insert (hammer_new (head m)) k v2) k = Some v2 /\
     hammer_get (hammer_new (head m)) k = Some v1).
Proof.
  unfold hammer_get, map_get; split; [|split; [|split]].
  - intros Hk; apply In_find_key_Some in Hk as [v Hv]; exists v; now rewrite Hv.
  - intros Hk Hh; rewrite (proj2 (find_key_None _ _) Hk).
    now apply find_key_nodup.
  - intros Hk Hh; rewrite (proj2 (find_key_None _ _) Hk).
    now apply find_key_None.
  - intros Hh; simpl; rewrite eqb_refl; split; [reflexivity|].
    now apply find_key_nodup.
Qed.

(** C5: [Map::get] returns the value of the frontmost pair with that key,
    [None] when there is none; [insert] only prepends, so the newer value
    wins and the older pairs stay. *)
Theorem map_get_frontmost (m : Map K V) (k : K) (v v1 v2 : V) :
  (map_get m k = Some v <->
     exists pre post, entries m = pre ++ (k, v) :: post /\ ~ In k (map fst pre)) /\
  (map_get m k = None <-> ~ In k (map fst (entries m))) /\
  map_get (map_insert (map_insert m k v1) k v2) k = Some v2 /\
  entries (map_insert m k v) = (k, v) :: entries m.
Proof.
  split; [|split; [apply find_key_None | split; [|reflexivity]]].
  - unfold map_get; induction (entries m) as [|[k' v'] t IH]; simpl.
    + split; [discriminate|]. intros [[|] [? [? _]]]; discriminate.
    + case_eqb k' k.
      * split.
        -- intros [= <-]; exists [], t; split; [reflexivity | intros []].
        -- intros [[|[k0 v0] pre] [post [Heq Hpre]]]; simpl in Heq.
           ++ now injection Heq as <-.
           ++ injection Heq as -> -> _; exfalso; apply Hpre; now left.
      * rewrite IH; split.
        -- intros [pre [post [Heq Hpre]]]; exists ((k', v') :: pre), post.
           rewrite Heq; split; [reflexivity|]; simpl; intros [?|?]; [congruence | tauto].
        -- intros [[|[k0 v0] pre] [post [Heq Hpre]]]; simpl in Heq.
           ++ injection Heq as -> _; congruence.
           ++ injection Heq as -> -> Heq; exists pre, post; split; [exact Heq|].
              intros Hin; apply Hpre; now right.
  - unfold map_get; simpl; now rewrite eqb_refl.
Qed.

(** C6: [Map] iteration yields each live key once, with its newest value,
    in the order of the keys' newest insertions; layered iteration yields
    the overlay's deduplicated iteration, then the head entries whose key
    was not yielded, each live key once with its effective value. *)
Theorem iteration_order (m : Map K V) (hm : HammerMap K V)
  (Hhead : NoDup (map fst (head hm))) :
  NoDup (map_keys m) /\
  (forall k v, In (k, v) (map_iter m) <-> map_get m k = Some v) /\
  (forall k, In k (map_keys m) <-> In k (map fst (entries m))) /\
  (exists idxs, StronglySorted lt idxs /\
     Forall2 (fun i kv => first_at (entries m) i kv) idxs (map_iter m)) /\
  hammer_iter hm = map_iter (chain hm)
     ++ filter (fun kv => negb (set_contains (map_keys (chain hm)) (fst kv))) (head hm) /\
  NoDup (hammer_keys hm) /\
  (forall k v, In (k, v) (hammer_iter hm) <-> hammer_get hm k = Some v).
Proof.
  split; [apply dedup_nodup|].
  split; [apply map_iter_In|].
  split; [intros k; apply dedup_keys_In|].
  split.
  - destruct (dedup_positions (entries m) []) as [idxs [Hs HF]].
    exists idxs; split; [exact Hs|].
    eapply Forall2_impl; [|exact HF]; simpl; tauto.
  - split; [|split; [apply hammer_keys_nodup | apply hammer_iter_In]].
    unfold hammer_iter; rewrite drain_chain_filter; [| apply dedup_nodup | intros ? ? [] | exact Hhead].
    reflexivity.
Qed.

(** C7: [len] is the number of distinct keys (of the overlay and the head
    together, for the layered map); [N] inserts of distinct keys give [N],
    [N >= 1] inserts of one key give 1. *)
Theorem len_distinct_keys (m : Map K V) (hm : HammerMap K V) (kvs : list (K * V))
  (k : K) (vs : list V)
  (Hkvs : NoDup (map fst kvs)) (Hvs : vs <> []) :
  (exists ks, NoDup ks /\ (forall x, In x ks <-> In x (map fst (entries m))) /\
     map_len m = length ks) /\
  (exists ks, NoDup ks /\
     (forall x, In x ks <-> In x (map fst (entries (chain hm))) \/ In x (map fst (head hm))) /\
     hammer_len hm = length ks) /\
  map_len (map_insert_many map_new kvs) = length kvs /\
  map_len (map_insert_many map_new (map (pair k) vs)) = 1.
Proof.
  assert (Hm : forall m : Map K V, NoDup (map_keys m) /\
            (forall x, In x (map_keys m) <-> In x (map fst (entries m))) /\
            map_len m = length (map_keys m)).
  { intros m'; split; [apply dedup_nodup|]; split; [intros x; apply dedup_keys_In|].
    rewrite map_len_iter; unfold map_keys; now rewrite length_map. }
  split; [exists (map_keys m); apply Hm|].
  split.
  - exists (hammer_keys hm); split; [apply hammer_keys_nodup|]; split.
    + intros x; unfold hammer_keys; rewrite hammer_iter_dedup, dedup_keys_In, map_app, in_app_iff.
      unfold map_iter; now rewrite (dedup_keys_In (entries (chain hm))).
    + rewrite hammer_len_iter; unfold hammer_keys; now rewrite length_map.
  - destruct (Hm (map_insert_many map_new kvs)) as [Hnd [Hin Hlen]].
    destruct (Hm (map_insert_many map_new (map (pair k) vs))) as [Hnd' [Hin' Hlen']].
    rewrite entries_insert_many in Hin, Hin'; simpl in Hin, Hin'; rewrite app_nil_r in Hin, Hin'.
    split.
    + rewrite Hlen, <- (length_map fst kvs); apply Nat.le_antisymm.
      * apply NoDup_incl_length; [exact Hnd|]; intros x Hx.
        apply Hin in Hx; rewrite map_rev, <- in_rev in Hx; exact Hx.
      * rewrite <- length_rev, <- map_rev.
        apply NoDup_incl_length; [rewrite map_rev; now apply NoDup_rev|].
        intros x Hx; now apply Hin.
    + rewrite Hlen'; apply Nat.le_antisymm.
      * change 1 with (length [k]); apply NoDup_incl_length; [exact Hnd'|].
        intros x Hx; apply Hin' in Hx; rewrite map_rev, in_rev, rev_involutive, map_map in Hx.
        apply in_map_iff in Hx as [w [<- _]]; now left.
      * destruct vs as [|w ws]; [congruence|].
        destruct (map_keys (map_insert_many map_new (map (pair k) (w :: ws)))) eqn:E;
          [|simpl; lia].
        exfalso; assert (Hk : In k (map fst (rev (map (pair k) (w :: ws))))).
        { rewrite map_rev, <- in_rev; simpl; now left. }
        apply Hin' in Hk; try rewrite E in Hk; contradiction.
Qed.

End Claims.

(** ** Concrete evaluations *)

(** C1: [PartialEq] only checks that [other]'s pairs are in [self]; the map
    {1: 1, 2: 2} compares equal to its strict subset {1: 1} in that order
    (for [Map] and for [HammerMap]), unequal in the other. *)
Theorem eq_not_symmetric :
  let a := map_insert (map_insert (map_new : nmap) 1 1) 2 2 in
  let b := map_insert (map_new : nmap) 1 1 in
  let ha := hammer_insert (hammer_insert (hammer_new ([] : HashMap nat nat)) 1 1) 2 2 in
  let hb := hammer_insert (hammer_new ([] : HashMap nat nat)) 1 1 in
  map_eq a b = true /\ map_eq b a = false /\
  hammer_eq ha hb = true /\ hammer_eq hb ha = false /\
  map_get a 2 = Some 2 /\ map_get b 2 = None.
Proof. repeat split. Qed.

(** C3: the association map's [Debug] prints both pairs of
    [Map::new().insert(1, 1).insert(1, 1)], not the listing [{1: 1}]. *)
Lemma map_debug_not_dedup :
  let m := map_insert (map_insert (map_new : nmap) 1 1) 1 1 in
  map_debug usize_debug usize_debug m
  = "Map(List { cons: Some(Cons { head: (1, 1), tail: Some(Cons { head: (1, 1), tail: None }) }), size: 2 })"%string /\
  map_debug usize_debug usize_debug m
  <> ("{" ++ join_pairs usize_debug usize_debug (map_iter m) ++ "}")%string.
Proof. split; [reflexivity | cbv; discriminate]. Qed.

(** ** Witnesses *)

Lemma hammer_get_overlay_then_head_witness :
  NoDup (map fst (head (hammer_new ([(1, 10); (2, 20)] : HashMap nat nat)))) /\
  hammer_get (hammer_insert (hammer_new ([(1, 10); (2, 20)] : HashMap nat nat)) 1 11) 1 = Some 11 /\
  hammer_get (hammer_new ([(1, 10); (2, 20)] : HashMap nat nat)) 1 = Some 10.
Proof.
  assert (Hnd : NoDup (map fst (head (hammer_new ([(1, 10); (2, 20)] : HashMap nat nat))))).
  { simpl; repeat constructor; simpl; intuition discriminate. }
  split; [exact Hnd|].
  destruct (hammer_get_overlay_then_head (hammer_new ([(1, 10); (2, 20)] : HashMap nat nat))
              1 10 11 Hnd) as [_ [_ [_ H4]]].
  apply H4; simpl; now left.
Defined.

Lemma iteration_order_witness :
  hammer_iter (hammer_insert (hammer_new ([(1, 10); (2, 20)] : HashMap nat nat)) 1 11)
  = [(1, 11); (2, 20)].
Proof.
  assert (Hnd : NoDup (map fst (head (hammer_insert (hammer_new ([(1, 10); (2, 20)] : HashMap nat nat)) 1 11)))).
  { simpl; repeat constructor; simpl; intuition discriminate. }
  destruct (iteration_order (map_new : nmap) _ Hnd) as [_ [_ [_ [_ [H5 _]]]]].
  rewrite H5; reflexivity.
Defined.

Lemma len_distinct_keys_witness :
  map_len (map_insert_many (map_new : nmap) [(1, 1); (2, 2); (3, 3)]) = 3 /\
  map_len (map_insert_many (map_new : nmap) (map (pair 7) [1; 2; 3])) = 1.
Proof.
  assert (Hnd : NoDup (map fst ([(1, 1); (2, 2); (3, 3)] : list (nat * nat)))).
  { simpl; repeat constructor; simpl; intuition discriminate. }
  assert (Hvs : [1; 2; 3] <> ([] : list nat)) by discriminate.
  destruct (len_distinct_keys (map_new : nmap) (hammer_new []) _ 7 _ Hnd Hvs)
    as [_ [_ [H3 H4]]].
  split; [exact H3 | exact H4].
Defined.

(** * The heap of cons cells *)

Section HeapFacts.
Context {T : Type}.
Implicit Types (h : Heap T) (l : List) (x : T).

Lemma read_fuel h (Hwf : heap_wf h) : forall f1 f2 i,
  i < f1 -> i < f2 -> read f1 h (Some i) = read f2 h (Some i).
Proof.
  induction f1 as [|f1 IH]; intros [|f2] i H1 H2; try lia; simpl.
  destruct (nth_error h i) as [c|] eqn:Hc; [|reflexivity].
  f_equal; destruct (cons_tail c) as [j|] eqn:Ht; [|destruct f1, f2; reflexivity].
  specialize (Hwf _ _ _ Hc Ht).
  destruct f1, f2; try lia; apply IH; lia.
Qed.

Lemma read_app h (e : Heap T) (Hwf : heap_wf h) : forall f p,
  ptr_valid h p -> read f (h ++ e) p = read f h p.
Proof.
  induction f as [|f IH]; intros [i|] Hp; simpl; try reflexivity.
  simpl in Hp; rewrite nth_error_app1 by exact Hp.
  destruct (nth_error h i) as [c|] eqn:Hc; [|reflexivity].
  f_equal; apply IH.
  destruct (cons_tail c) as [j|] eqn:Ht; simpl; [|exact I].
  specialize (Hwf _ _ _ Hc Ht); lia.
Qed.

Lemma wf_push h l x : heap_wf h -> ptr_valid h (cons l) -> heap_wf (fst (push_front h l x)).
Proof.
  intros Hwf Hl i c j Hc Ht; simpl in Hc.
  destruct (Nat.lt_ge_cases i (length h)) as [Hi|Hi].
  - rewrite nth_error_app1 in Hc by exact Hi; eapply Hwf; eauto.
  - rewrite nth_error_app2 in Hc by exact Hi.
    destruct (i - length h) as [|n] eqn:E; simpl in Hc; [|destruct n; discriminate].
    injection Hc as <-; simpl in Ht; rewrite Ht in Hl; simpl in Hl; lia.
Qed.

Lemma valid_push h l x p : ptr_valid h p -> ptr_valid (fst (push_front h l x)) p.
Proof. destruct p; simpl; [rewrite length_app; simpl; lia | trivial]. Qed.

(** Reading an older handle after a [push_front] gives what it gave before. *)
Lemma iter_push_old h l x l0 : heap_wf h -> ptr_valid h (cons l0) ->
  list_iter (fst (push_front h l x)) l0 = list_iter h l0.
Proof.
  intros Hwf Hv; unfold list_iter; simpl.
  rewrite read_app by assumption.
  destruct (cons l0) as [i|]; [|destruct (length h), (length (h ++ _)); reflexivity].
  simpl in Hv; apply read_fuel; [exact Hwf | rewrite length_app; simpl; lia | lia].
Qed.

Lemma iter_push_new h l x : heap_wf h -> ptr_valid h (cons l) ->
  list_iter (fst (push_front h l x)) (snd (push_front h l x)) = x :: list_iter h l.
Proof.
  intros Hwf Hv; unfold list_iter; simpl.
  rewrite length_app; simpl; rewrite Nat.add_1_r; simpl.
  rewrite nth_error_app2, Nat.sub_diag by lia; simpl; f_equal.
  rewrite read_app by assumption.
  destruct (cons l) as [i|]; [|destruct (length h); reflexivity].
  simpl in Hv; apply read_fuel; [exact Hwf | lia | lia].
Qed.

Lemma list_new_inv h : list_inv h list_new.
Proof. unfold list_inv, list_iter; simpl; split; [exact I | now destruct (length h)]. Qed.

Lemma push_preserves h ls l x :
  heap_wf h -> Forall (list_inv h) ls -> list_inv h l ->
  heap_wf (fst (push_front h l x)) /\
  Forall (list_inv (fst (push_front h l x))) ls /\
  list_inv (fst (push_front h l x)) (snd (push_front h l x)).
Proof.
  intros Hwf Hls [Hv Hs]; split; [now apply wf_push|]; split.
  - eapply Forall_impl; [|exact Hls]; intros l0 [Hv0 Hs0]; split.
    + now apply valid_push.
    + now rewrite iter_push_old.
  - split; [simpl; rewrite length_app; simpl; lia|].
    rewrite iter_push_new by assumption; simpl; rewrite Hs; lia.
Qed.

Lemma fold_push_preserves (xs : list T) : forall h ls l,
  heap_wf h -> Forall (list_inv h) ls -> list_inv h l ->
  let r := fold_left (fun '(h, l) x => push_front h l x) xs (h, l) in
  heap_wf (fst r) /\ Forall (list_inv (fst r)) ls /\ list_inv (fst r) (snd r).
Proof.
  induction xs as [|x xs IH]; intros h ls l Hwf Hls Hl; [simpl; auto|].
  destruct (push_preserves h (l :: ls) l x Hwf (Forall_cons _ Hl Hls) Hl) as [Hwf' [Hls' Hl']].
  cbn [fold_left].
  change (let '(h0, l0) := (h, l) in push_front h0 l0 x) with (push_front h l x).
  destruct (push_front h l x) as [h' l'] eqn:E; simpl in *.
  inversion Hls'; subst.
  apply IH; assumption.
Qed.

Lemma pop_cons h l i c : heap_wf h -> list_inv h l -> cons l = Some i -> nth_error h i = Some c ->
  1 <= size l /\ list_iter h l = cons_head c :: list_iter h (List_ (cons_tail c) (size l - 1)).
Proof.
  intros Hwf [Hv Hs] Hi Hc; unfold list_iter in *; rewrite Hi in Hv, Hs |- *; simpl in Hv.
  destruct (length h) as [|n] eqn:En; [lia|]; simpl; rewrite Hc.
  simpl in Hs; rewrite Hc in Hs; simpl in Hs; split; [lia|]; f_equal.
  destruct (cons_tail c) as [j|] eqn:Ht; [|destruct n; reflexivity].
  pose proof (Hwf _ _ _ Hc Ht) as Hj.
  transitivity (read (S n) h (Some j)); [apply read_fuel; [exact Hwf | lia | lia] | reflexivity].
Qed.

Lemma pop_preserves h l : heap_wf h -> list_inv h l ->
  exists l', pop_front h l = Ok l' /\ list_inv h l' /\ list_iter h l' = tl (list_iter h l).
Proof.
  intros Hwf Hl; unfold pop_front.
  destruct (cons l) as [i|] eqn:Hi.
  - pose proof Hl as [Hv Hs]; rewrite Hi in Hv; simpl in Hv.
    destruct (nth_error h i) as [c|] eqn:Hc;
      [|apply nth_error_None in Hc; lia].
    destruct (pop_cons h l i c Hwf Hl Hi Hc) as [H1 Hiter].
    unfold usize_sub; rewrite (proj2 (Nat.leb_le 1 (size l)) H1); simpl.
    eexists; split; [reflexivity|]; split; [split|].
    + simpl; destruct (cons_tail c) as [j|] eqn:Ht; [|exact I].
      specialize (Hwf _ _ _ Hc Ht); simpl; lia.
    + simpl; rewrite Hiter in Hs; simpl in Hs; lia.
    + now rewrite Hiter.
  - exists list_new; unfold list_iter; rewrite Hi; simpl.
    split; [reflexivity|]; unfold list_inv, list_iter; simpl.
    split; [split; [exact I|]|]; destruct (length h); reflexivity.
Qed.

(** Every handle the program can build satisfies the size invariant. *)
Lemma reachable_inv h ls : reachable h ls -> heap_wf h /\ Forall (list_inv h) ls.
Proof.
  induction 1 as [| h ls _ [Hwf Hls] | h ls l _ [Hwf Hls] Hin
                 | h ls l x _ [Hwf Hls] Hin | h ls l xs _ [Hwf Hls] Hin
                 | h ls l l' _ [Hwf Hls] Hin Hpop | h ls xs _ [Hwf Hls]].
  - split; [intros i c j Hc; destruct i; discriminate | constructor].
  - split; [exact Hwf|]; constructor; [apply list_new_inv | exact Hls].
  - split; [exact Hwf|]; constructor; [|exact Hls].
    apply Forall_forall with (x := l) in Hls; [exact Hls | exact Hin].
  - pose proof (proj1 (Forall_forall _ _) Hls l Hin) as Hl.
    destruct (push_preserves h ls l x Hwf Hls Hl) as [? [? ?]].
    split; [assumption | constructor; assumption].
  - pose proof (proj1 (Forall_forall _ _) Hls l Hin) as Hl.
    destruct (fold_push_preserves xs h ls (list_clone l) Hwf Hls) as [? [? ?]];
      [destruct l; exact Hl|].
    split; [assumption | constructor; assumption].
  - pose proof (proj1 (Forall_forall _ _) Hls l Hin) as Hl.
    destruct (pop_preserves h l Hwf Hl) as [l'' [Hp [Hl'' _]]].
    rewrite Hp in Hpop; injection Hpop as <-.
    split; [exact Hwf | constructor; assumption].
  - destruct (fold_push_preserves xs h ls list_new Hwf Hls) as [? [? ?]];
      [apply list_new_inv|].
    split; [assumption | constructor; assumption].
Qed.

End HeapFacts.

(** * Claims on handles *)

(** C8: deriving [M2] from [M1] by [push_front] / [insert] leaves every
    read of [M1], and of any other existing handle, as it was; the layered
    map's new handle keeps the same head address, and the head store is
    untouched. *)
Theorem derive_keeps_handles {K V : Type} `{EqDec K} `{EqDec V}
  (h : Heap (K * V)) (hs : list (HashMap K V)) (l l0 : List) (m1 : HammerMapH)
  (k : K) (v : V)
  (Hwf : heap_wf h) (Hl : ptr_valid h (cons l)) (Hl0 : ptr_valid h (cons l0))
  (Hm : ptr_valid h (cons (hchain m1))) :
  let h' := fst (push_front h l (k, v)) in
  (list_iter h' l0 = list_iter h l0 /\
   (forall y, list_contains h' l0 y = list_contains h l0 y) /\
   map_view h' l0 = map_view h l0 /\
   (forall q, map_get (map_view h' l0) q = map_get (map_view h l0) q) /\
   map_len (map_view h' l0) = map_len (map_view h l0) /\
   map_iter (map_view h' l0) = map_iter (map_view h l0) /\
   (forall o, map_eq (map_view h' l0) o = map_eq (map_view h l0) o /\
              map_eq o (map_view h' l0) = map_eq o (map_view h l0)) /\
   map_view h' (snd (push_front h l (k, v))) = map_insert (map_view h l) k v) /\
  (let '(h2, hs2, m2) := hammerH_insert h hs m1 k v in
   hs2 = hs /\ hhead m2 = hhead m1 /\
   hammer_view h2 hs2 m1 = hammer_view h hs m1 /\
   (forall q, hammer_get (hammer_view h2 hs2 m1) q = hammer_get (hammer_view h hs m1) q) /\
   hammer_len (hammer_view h2 hs2 m1) = hammer_len (hammer_view h hs m1) /\
   hammer_iter (hammer_view h2 hs2 m1) = hammer_iter (hammer_view h hs m1) /\
   hammer_view h2 hs2 m2 = hammer_insert (hammer_view h hs m1) k v).
Proof.
  intros h'.
  assert (Hold : map_view h' l0 = map_view h l0).
  { unfold map_view, h'; now rewrite iter_push_old. }
  split.
  - split; [unfold h'; now rewrite iter_push_old|].
    split; [intros y; unfold list_contains, h'; now rewrite iter_push_old|].
    split; [exact Hold|].
    rewrite Hold; split; [reflexivity|]; split; [reflexivity|]; split; [reflexivity|].
    split; [split; reflexivity|].
    unfold map_view, h'; now rewrite iter_push_new.
  - unfold hammerH_insert.
    assert (Hv : hammer_view (fst (push_front h (hchain m1) (k, v))) hs m1 = hammer_view h hs m1).
    { unfold hammer_view, map_view; now rewrite iter_push_old. }
    assert (Hn : hammer_view (fst (push_front h (hchain m1) (k, v))) hs
                   (HammerMapH_ (snd (push_front h (hchain m1) (k, v))) (hhead m1))
                 = hammer_insert (hammer_view h hs m1) k v).
    { unfold hammer_view, map_view; cbn [hchain hhead]; rewrite iter_push_new by assumption; reflexivity. }
    destruct (push_front h (hchain m1) (k, v)) as [h2 c2]; simpl in Hv, Hn.
    rewrite Hv; repeat split; exact Hn.
Qed.

(** C9: [pop_front] of an empty list is an empty list; [pop_front] never
    panics on a handle the program built; [Index] panics exactly when [get]
    is [None], and otherwise returns [get]'s value; the layered map's
    [Debug] never underflows its [self.len() - 1]. *)
Theorem operations_total {T K V : Type} `{EqDec K} `{EqDec V}
  (h : Heap T) (ls : list List) (Hr : reachable h ls) :
  pop_front h list_new = Ok list_new /\
  (forall l, In l ls -> exists l', pop_front h l = Ok l') /\
  (forall (m : Map K V) k, (exists msg, map_index m k = Panic msg) <-> map_get m k = None) /\
  (forall (m : Map K V) k v, map_index m k = Ok v <-> map_get m k = Some v) /\
  (forall (m : HammerMap K V) k, (exists msg, hammer_index m k = Panic msg) <-> hammer_get m k = None) /\
  (forall (m : HammerMap K V) k v, hammer_index m k = Ok v <-> hammer_get m k = Some v) /\
  (forall dK dV (m : HammerMap K V), exists s, hammer_debug dK dV m = Ok s).
Proof.
  destruct (reachable_inv h ls Hr) as [Hwf Hls].
  split; [reflexivity|].
  split.
  { intros l Hin; destruct (pop_preserves h l Hwf (proj1 (Forall_forall _ _) Hls l Hin))
      as [l' [Hp _]]; eauto. }
  unfold map_index, hammer_index.
  split; [intros m k; destruct (map_get m k); split; intros Hx;
          try discriminate; try (destruct Hx; discriminate); eauto|].
  split; [intros m k v; destruct (map_get m k); split; congruence|].
  split; [intros m k; destruct (hammer_get m k); split; intros Hx;
          try discriminate; try (destruct Hx; discriminate); eauto|].
  split; [intros m k v; destruct (hammer_get m k); split; congruence|].
  intros dK dV m; eexists; unfold hammer_debug; rewrite hammer_len_iter.
  rewrite <- (Nat.add_0_l (length (hammer_iter m))), fmt_entries_join; reflexivity.
Qed.

(** C10: on every handle the program builds, [size] is the length of the
    chain, so [len] and [is_empty] are exact, a non-empty chain has
    [size >= 1] (the [size - 1] of [pop_front] never underflows) and
    [pop_front] yields the tail. *)
Theorem size_field_matches_chain {T : Type} (h : Heap T) (ls : list List)
  (Hr : reachable h ls) :
  heap_wf h /\
  forall l, In l ls ->
    size l = length (list_iter h l) /\
    list_len l = length (list_iter h l) /\
    (list_is_empty l = true <-> list_iter h l = []) /\
    (cons l <> None -> 1 <= size l) /\
    exists l', pop_front h l = Ok l' /\ list_iter h l' = tl (list_iter h l).
Proof.
  destruct (reachable_inv h ls Hr) as [Hwf Hls]; split; [exact Hwf|].
  intros l Hin; pose proof (proj1 (Forall_forall _ _) Hls l Hin) as Hinv.
  pose proof Hinv as [Hv Hs].
  split; [exact Hs|]; split; [exact Hs|].
  split; [unfold list_is_empty; rewrite Hs, Nat.eqb_eq, length_zero_iff_nil; reflexivity|].
  split.
  - intros Hc; destruct (cons l) as [i|] eqn:Hi; [|congruence].
    simpl in Hv; destruct (nth_error h i) as [c|] eqn:Hc';
      [|apply nth_error_None in Hc'; lia].
    exact (proj1 (pop_cons h l i c Hwf Hinv Hi Hc')).
  - destruct (pop_preserves h l Hwf Hinv) as [l' [Hp [_ Ht]]]; eauto.
Qed.

(** ** Witnesses *)

Lemma heap1_wf : heap_wf heap1.
Proof.
  intros i c j Hc Ht; destruct i as [|i]; simpl in Hc.
  - injection Hc as <-; discriminate.
  - destruct i; discriminate.
Qed.

Lemma derive_keeps_handles_witness :
  map_view (fst (push_front heap1 list1 (3, 3))) list1 = map_view heap1 list1 /\
  map_get (map_view (fst (push_front heap1 list1 (3, 3))) list1) 3 = None.
Proof.
  assert (Hv : ptr_valid heap1 (cons list1)) by (simpl; lia).
  assert (Hm : ptr_valid heap1 (cons (hchain (HammerMapH_ list1 0)))) by (simpl; lia).
  destruct (derive_keeps_handles heap1 [[(2, 2)]] list1 list1 (HammerMapH_ list1 0) 3 3
              heap1_wf Hv Hv Hm) as [[_ [_ [H3 _]]] _].
  split; [exact H3 | rewrite H3; reflexivity].
Defined.

Lemma reachable1 :
  reachable (fst (push_front ([] : Heap nat) list_new 5))
            [snd (push_front ([] : Heap nat) list_new 5); list_new].
Proof. apply reach_push; [apply reach_new, reach_init | now left]. Qed.

Lemma operations_total_witness :
  exists l', pop_front (fst (push_front ([] : Heap nat) list_new 5))
                       (snd (push_front ([] : Heap nat) list_new 5)) = Ok l'.
Proof.
  destruct (operations_total (K := nat) (V := nat) _ _ reachable1) as [_ [Hpop _]].
  apply Hpop; now left.
Defined.

Lemma size_field_matches_chain_witness :
  list_len (snd (push_front ([] : Heap nat) list_new 5))
  = length (list_iter (fst (push_front ([] : Heap nat) list_new 5))
                      (snd (push_front ([] : Heap nat) list_new 5))) /\
  list_len (snd (push_front ([] : Heap nat) list_new 5)) = 1.
Proof.
  destruct (size_field_matches_chain _ _ reachable1) as [_ Hall].
  destruct (Hall (snd (push_front ([] : Heap nat) list_new 5))) as [_ [H2 _]]; [now left|].
  split; [exact H2 | reflexivity].
Defined.

(** * Further properties of the code *)

Lemma existsb_eqb_In {A} `{EqDec A} (l : list A) a : existsb (fun o => eqb o a) l = true <-> In a l.
Proof.
  rewrite existsb_exists; split.
  - intros [x [Hx He]]; apply eqb_true in He; now subst.
  - intros Ha; exists a; split; [exact Ha | apply eqb_refl].
Qed.

Section MapExtras.
Context {K V : Type} `{EqDec K} `{EqDec V}.

Lemma map_keys_In (m : Map K V) k : In k (map_keys m) <-> In k (map fst (entries m)).
Proof. apply dedup_keys_In. Qed.

Lemma hammer_keys_In (m : HammerMap K V) k :
  In k (hammer_keys m) <-> In k (map fst (entries (chain m))) \/ In k (map fst (head m)).
Proof.
  unfold hammer_keys; rewrite hammer_iter_dedup, dedup_keys_In, map_app, in_app_iff.
  unfold map_iter; now rewrite (dedup_keys_In (entries (chain m))).
Qed.

Lemma map_len_keys (m : Map K V) : map_len m = length (map_keys m).
Proof. rewrite map_len_iter; unfold map_keys; now rewrite length_map. Qed.

Lemma hammer_len_keys (m : HammerMap K V) : hammer_len m = length (hammer_keys m).
Proof. rewrite hammer_len_iter; unfold hammer_keys; now rewrite length_map. Qed.

Lemma nodup_same_length (a b : list K) :
  NoDup a -> NoDup b -> (forall x, In x a <-> In x b) -> length a = length b.
Proof.
  intros Ha Hb Hab; apply Nat.le_antisymm; apply NoDup_incl_length; auto;
    intros x Hx; now apply Hab.
Qed.

Lemma In_find_key (l : list (K * V)) k : In k (map fst l) <-> find_key l k <> None.
Proof.
  split.
  - intros Hk Hn; now apply find_key_None in Hn.
  - intros Hn; destruct (find_key l k) as [v|] eqn:E; [|congruence].
    apply find_key_Some_In in E; apply in_map_iff; now exists (k, v).
Qed.

Lemma map_contains_get (m : Map K V) k : map_contains_key m k = true <-> map_get m k <> None.
Proof.
  unfold map_contains_key; rewrite existsb_eqb_In, map_keys_In; apply In_find_key.
Qed.

Lemma hammer_contains_get (m : HammerMap K V) k :
  hammer_contains_key m k = true <-> hammer_get m k <> None.
Proof.
  unfold hammer_contains_key; rewrite existsb_eqb_In; split.
  - intros Hk; unfold hammer_keys in Hk; apply in_map_iff in Hk as [[k' v] [<- Hin]].
    apply hammer_iter_In in Hin; simpl; rewrite Hin; discriminate.
  - intros Hn; destruct (hammer_get m k) as [v|] eqn:E; [|congruence].
    apply hammer_iter_In in E; unfold hammer_keys; apply in_map_iff; now exists (k, v).
Qed.

Lemma Forall2_pairs (P : K -> V -> Prop) (l : list (K * V)) :
  (forall k v, In (k, v) l -> P k v) -> Forall2 P (map fst l) (map snd l).
Proof.
  induction l as [|[k v] t IH]; simpl; intros HP; constructor.
  - apply HP; now left.
  - apply IH; intros; apply HP; now right.
Qed.

Lemma find_key_split (l : list (K * V)) k v :
  find_key l k = Some v <-> exists pre post, l = pre ++ (k, v) :: post /\ ~ In k (map fst pre).
Proof.
  induction l as [|[k' v'] t IH]; simpl.
  - split; [discriminate|]. intros [[|] [? [? _]]]; discriminate.
  - case_eqb k' k.
    + split.
      * intros [= <-]; exists [], t; split; [reflexivity | intros []].
      * intros [[|[k0 v0] pre] [post [Heq Hpre]]]; simpl in Heq.
        -- now injection Heq as <-.
        -- injection Heq as -> -> _; exfalso; apply Hpre; now left.
    + rewrite IH; split.
      * intros [pre [post [Heq Hpre]]]; exists ((k', v') :: pre), post.
        rewrite Heq; split; [reflexivity|]; simpl; intros [?|?]; [congruence | tauto].
      * intros [[|[k0 v0] pre] [post [Heq Hpre]]]; simpl in Heq.
        -- injection Heq as -> _; congruence.
        -- injection Heq as -> -> Heq; exists pre, post; split; [exact Heq|].
           intros Hin; apply Hpre; now right.
Qed.

(** The last item with key [k] is the first one of the reversed items. *)
Lemma find_key_rev_split (items : list (K * V)) k v :
  find_key (rev items) k = Some v <->
  exists pre post, items = pre ++ (k, v) :: post /\ ~ In k (map fst post).
Proof.
  rewrite find_key_split; split.
  - intros [pre [post [Heq Hpre]]]; exists (rev post), (rev pre); split.
    + rewrite <- (rev_involutive items), Heq, rev_app_distr; simpl.
      now rewrite <- app_assoc.
    + now rewrite map_rev, <- in_rev.
  - intros [pre [post [Heq Hpost]]]; exists (rev post), (rev pre); split.
    + rewrite Heq, rev_app_distr; simpl; now rewrite <- app_assoc.
    + now rewrite map_rev, <- in_rev.
Qed.

Lemma last_wins_iff (items : list (K * V)) k v (o : option V) :
  match find_key (rev items) k with Some w => Some w | None => o end = Some v <->
  (exists pre post, items = pre ++ (k, v) :: post /\ ~ In k (map fst post)) \/
  (~ In k (map fst items) /\ o = Some v).
Proof.
  rewrite <- find_key_rev_split.
  assert (Hn : find_key (rev items) k = None <-> ~ In k (map fst items)).
  { now rewrite find_key_None, map_rev, <- in_rev. }
  destruct (find_key (rev items) k) as [w|] eqn:E.
  - split; [tauto|]; intros [Hw|[Hk _]]; [exact Hw|].
    apply Hn in Hk; congruence.
  - split; [intros Ho; right; split; [now apply Hn | exact Ho]|].
    intros [Hw|[_ Ho]]; [discriminate | exact Ho].
Qed.

Lemma map_get_insert_many (m : Map K V) (items : list (K * V)) k :
  map_get (map_insert_many m items) k
  = match find_key (rev items) k with Some w => Some w | None => map_get m k end.
Proof. unfold map_get; now rewrite entries_insert_many, find_key_app. Qed.

Lemma hashmap_get_fold (l : list (K * V)) : forall h k,
  hashmap_get (fold_left (fun h '(k, v) => hashmap_insert k v h) l h) k
  = match find_key (rev l) k with Some v => Some v | None => hashmap_get h k end.
Proof.
  induction l as [|[k1 v1] t IH]; simpl; intros h k; [reflexivity|].
  rewrite IH, hashmap_get_insert, find_key_app; simpl.
  destruct (find_key (rev t) k); [reflexivity|].
  now destruct (eqb k1 k).
Qed.

Lemma hashmap_insert_keys (h : HashMap K V) k v x :
  In x (map fst (hashmap_insert k v h)) <-> x = k \/ In x (map fst h).
Proof.
  induction h as [|[k' v'] t IH]; simpl; [intuition (subst; auto)|].
  case_eqb k' k; simpl; [intuition (subst; auto)|]; rewrite IH; intuition (subst; auto).
Qed.

Lemma hashmap_insert_nodup (h : HashMap K V) k v :
  NoDup (map fst h) -> NoDup (map fst (hashmap_insert k v h)).
Proof.
  induction h as [|[k' v'] t IH]; simpl; intros Hnd.
  - constructor; [intros [] | constructor].
  - inversion Hnd as [|? ? Hk Hnd']; subst.
    case_eqb k' k; simpl; constructor; auto.
    rewrite hashmap_insert_keys; intros [->|Hin]; [congruence | contradiction].
Qed.

Lemma hashmap_collect_keys (l : list (K * V)) : forall h,
  NoDup (map fst h) ->
  let r := fold_left (fun h '(k, v) => hashmap_insert k v h) l h in
  NoDup (map fst r) /\ forall x, In x (map fst r) <-> In x (map fst l) \/ In x (map fst h).
Proof.
  induction l as [|[k v] t IH]; simpl; intros h Hnd.
  - split; [exact Hnd | tauto].
  - destruct (IH (hashmap_insert k v h)) as [Hnd' Hin]; [now apply hashmap_insert_nodup|].
    split; [exact Hnd'|]; intros x; rewrite Hin, hashmap_insert_keys; intuition (subst; auto).
Qed.

(** ** Lookups and membership *)

(** X1: [contains_key] (a scan of the iterated keys) agrees with [get] (a
    lookup), for the association map and the layered map; after
    [insert(k, v)], [get(k)] is [v], other keys read as before, and
    [contains_key] gains exactly [k]. *)
Theorem contains_key_matches_get (m : Map K V) (hm : HammerMap K V) (k k' : K) (v : V) :
  (map_contains_key m k' = true <-> map_get m k' <> None) /\
  (hammer_contains_key hm k' = true <-> hammer_get hm k' <> None) /\
  map_get (map_insert m k v) k = Some v /\
  hammer_get (hammer_insert hm k v) k = Some v /\
  (k <> k' -> map_get (map_insert m k v) k' = map_get m k') /\
  (k <> k' -> hammer_get (hammer_insert hm k v) k' = hammer_get hm k') /\
  map_contains_key (map_insert m k v) k' = eqb k k' || map_contains_key m k' /\
  hammer_contains_key (hammer_insert hm k v) k' = eqb k k' || hammer_contains_key hm k'.
Proof.
  split; [apply map_contains_get|].
  split; [apply hammer_contains_get|].
  split; [unfold map_get; simpl; now rewrite eqb_refl|].
  split; [unfold hammer_get, map_get; simpl; now rewrite eqb_refl|].
  split; [intros Hk; unfold map_get; simpl; now rewrite (proj2 (eqb_false_iff k k') Hk)|].
  split; [intros Hk; unfold hammer_get, map_get; simpl; now rewrite (proj2 (eqb_false_iff k k') Hk)|].
  split.
  - apply eq_iff_eq_true; rewrite orb_true_iff, !map_contains_get, eqb_true.
    unfold map_get; simpl; case_eqb k k'; [split; [auto | intros _; discriminate] | tauto].
  - apply eq_iff_eq_true; rewrite orb_true_iff, !hammer_contains_get, eqb_true.
    unfold hammer_get, map_get; simpl; case_eqb k k'; [split; [auto | intros _; discriminate] | tauto].
Qed.

(** X2: [len] after [insert(k, v)] is [len] plus one when [k] was absent,
    and unchanged when [contains_key(k)] held. *)
Theorem len_after_insert (m : Map K V) (hm : HammerMap K V) (k : K) (v : V) :
  map_len (map_insert m k v) = (if map_contains_key m k then map_len m else S (map_len m)) /\
  hammer_len (hammer_insert hm k v)
  = (if hammer_contains_key hm k then hammer_len hm else S (hammer_len hm)).
Proof.
  split.
  - rewrite !map_len_keys; unfold map_contains_key.
    destruct (existsb (fun o => eqb o k) (map_keys m)) eqn:Hc.
    + apply existsb_eqb_In, map_keys_In in Hc.
      apply nodup_same_length; [apply dedup_nodup | apply dedup_nodup|].
      intros x; rewrite !map_keys_In; simpl; split; [intros [<-|Hx]; auto | auto].
    + assert (Hn : ~ In k (map_keys m)) by (intros Hin; apply existsb_eqb_In in Hin; congruence).
      change (S (length (map_keys m))) with (length (k :: map_keys m)).
      apply nodup_same_length; [apply dedup_nodup | constructor; [exact Hn | apply dedup_nodup]|].
      intros x; rewrite map_keys_In; simpl; rewrite map_keys_In; tauto.
  - rewrite !hammer_len_keys; unfold hammer_contains_key.
    destruct (existsb (fun o => eqb o k) (hammer_keys hm)) eqn:Hc.
    + apply existsb_eqb_In, hammer_keys_In in Hc.
      apply nodup_same_length; [apply hammer_keys_nodup | apply hammer_keys_nodup|].
      intros x; rewrite !hammer_keys_In; simpl; split; [intros [[<-|Hx]|Hx]; auto | tauto].
    + assert (Hn : ~ In k (hammer_keys hm)) by (intros Hin; apply existsb_eqb_In in Hin; congruence).
      change (S (length (hammer_keys hm))) with (length (k :: hammer_keys hm)).
      apply nodup_same_length; [apply hammer_keys_nodup | constructor; [exact Hn | apply hammer_keys_nodup]|].
      intros x; rewrite hammer_keys_In; simpl; rewrite hammer_keys_In; tauto.
Qed.

(** X3: [is_empty] (a check of the underlying structure) holds exactly when
    [len] (the count of distinct keys) is 0. *)
Theorem is_empty_iff_len_zero (m : Map K V) (hm : HammerMap K V) :
  (map_is_empty m = true <-> map_len m = 0) /\
  (hammer_is_empty hm = true <-> hammer_len hm = 0).
Proof.
  split.
  - rewrite map_len_keys, length_zero_iff_nil; unfold map_is_empty.
    destruct (entries m) as [|[k v] t] eqn:E.
    + split; [intros _ | reflexivity].
      destruct (map_keys m) as [|x xs] eqn:Ek; [reflexivity|].
      exfalso; assert (Hx : In x (map_keys m)) by (rewrite Ek; now left).
      rewrite map_keys_In, E in Hx; contradiction.
    + split; [discriminate|]; intros Hk.
      assert (Hx : In k (map_keys m)) by (rewrite map_keys_In, E; now left).
      rewrite Hk in Hx; contradiction.
  - rewrite hammer_len_keys, length_zero_iff_nil; unfold hammer_is_empty, map_is_empty.
    destruct (entries (chain hm)) as [|[k v] t] eqn:E;
      [destruct (head hm) as [|[k2 v2] t2] eqn:Eh|]; simpl.
    + split; [intros _ | reflexivity].
      destruct (hammer_keys hm) as [|x xs] eqn:Ek; [reflexivity|].
      exfalso; assert (Hx : In x (hammer_keys hm)) by (rewrite Ek; now left).
      rewrite hammer_keys_In, E, Eh in Hx; simpl in Hx; tauto.
    + split; [discriminate|]; intros Hk.
      assert (Hx : In k2 (hammer_keys hm)) by (rewrite hammer_keys_In, Eh; simpl; tauto).
      rewrite Hk in Hx; contradiction.
    + split; [discriminate|]; intros Hk.
      assert (Hx : In k (hammer_keys hm)) by (rewrite hammer_keys_In, E; simpl; tauto).
      rewrite Hk in Hx; contradiction.
Qed.

(** X4: [keys()] and [values()] are aligned: the [i]-th value is what [get]
    returns for the [i]-th key, and both have [len] items. *)
Theorem keys_values_aligned (m : Map K V) (hm : HammerMap K V) :
  Forall2 (fun k v => map_get m k = Some v) (map_keys m) (map_values m) /\
  length (map_values m) = map_len m /\
  Forall2 (fun k v => hammer_get hm k = Some v) (hammer_keys hm) (hammer_values hm) /\
  length (hammer_values hm) = hammer_len hm.
Proof.
  split; [apply Forall2_pairs; intros k v; apply map_iter_In|].
  split; [unfold map_values; now rewrite length_map, map_len_iter|].
  split; [apply Forall2_pairs; intros k v; apply hammer_iter_In|].
  unfold hammer_values; now rewrite length_map, hammer_len_iter.
Qed.

(** ** Bulk construction *)

(** X6: after [insert_many(items)], [get(k)] is the value of the last item
    with key [k]; when no item has key [k], it is the map's value before. *)
Theorem insert_many_last_wins (m : Map K V) (hm : HammerMap K V) (items : list (K * V))
  (k : K) (v : V) :
  (map_get (map_insert_many m items) k = Some v <->
     (exists pre post, items = pre ++ (k, v) :: post /\ ~ In k (map fst post)) \/
     (~ In k (map fst items) /\ map_get m k = Some v)) /\
  (hammer_get (hammer_insert_many hm items) k = Some v <->
     (exists pre post, items = pre ++ (k, v) :: post /\ ~ In k (map fst post)) \/
     (~ In k (map fst items) /\ hammer_get hm k = Some v)).
Proof.
  split; [rewrite map_get_insert_many; apply last_wins_iff|].
  rewrite <- last_wins_iff; unfold hammer_get; cbn [chain head hammer_insert_many].
  rewrite map_get_insert_many; now destruct (find_key (rev items) k).
Qed.

(** X7: [Map::from_iter] and [HammerMap::from_iter] (which collects the
    items into the head table) read alike: [get(k)] is the value of the
    last item with key [k] in both, [None] when no item has it; their
    [len] is the same; the collected head has distinct keys. *)
Theorem from_iter_last_wins (items : list (K * V)) (k : K) (v : V) :
  map_get (map_from_iter items) k = hammer_get (hammer_from_iter items) k /\
  (map_get (map_from_iter items) k = Some v <->
     exists pre post, items = pre ++ (k, v) :: post /\ ~ In k (map fst post)) /\
  (map_get (map_from_iter items) k = None <-> ~ In k (map fst items)) /\
  map_len (map_from_iter items) = hammer_len (hammer_from_iter items) /\
  NoDup (map fst (head (hammer_from_iter items))).
Proof.
  assert (Hm : map_get (map_from_iter items) k = find_key (rev items) k).
  { unfold map_from_iter; rewrite map_get_insert_many; now destruct (find_key (rev items) k). }
  destruct (hashmap_collect_keys items [] (NoDup_nil _)) as [Hnd Hkeys].
  split.
  - rewrite Hm; unfold hammer_get, hammer_from_iter, hashmap_collect; simpl.
    now rewrite hashmap_get_fold; destruct (find_key (rev items) k).
  - split; [rewrite Hm; apply find_key_rev_split|].
    split; [now rewrite Hm, find_key_None, map_rev, <- in_rev|].
    split; [|exact Hnd].
    rewrite map_len_keys, hammer_len_keys.
    apply nodup_same_length; [apply dedup_nodup | apply hammer_keys_nodup|].
    intros x; rewrite map_keys_In, hammer_keys_In; simpl.
    unfold map_from_iter; rewrite entries_insert_many, Hkeys; simpl.
    rewrite app_nil_r, map_rev, <- in_rev; tauto.
Qed.

(** ** Equality *)

(** X8: for values with a lawful equality ([V: Eq], the bound under which
    the crate declares [Eq] for the maps), [a == b] holds exactly when every
    live pair of [b] is a live pair of [a], and [a == b && b == a] holds
    exactly when [a] and [b] answer [get] alike on every key, whatever their
    histories. *)
Theorem eq_is_inclusion (a b : Map K V) (ha hb : HammerMap K V) :
  (map_eq a b = true <-> forall k v, map_get b k = Some v -> map_get a k = Some v) /\
  (map_eq a b && map_eq b a = true <-> forall k, map_get a k = map_get b k) /\
  (hammer_eq ha hb = true <-> forall k v, hammer_get hb k = Some v -> hammer_get ha k = Some v) /\
  (hammer_eq ha hb && hammer_eq hb ha = true <-> forall k, hammer_get ha k = hammer_get hb k).
Proof.
  split; [apply map_eq_subset|].
  split.
  { rewrite andb_true_iff, !map_eq_subset; split.
    - intros [H1 H2] k; destruct (map_get a k) as [x|] eqn:Ea.
      + symmetry; now apply H2.
      + destruct (map_get b k) as [y|] eqn:Eb; [apply H1 in Eb; congruence | reflexivity].
    - intros Heq; split; intros k v Hv; [rewrite Heq | rewrite <- Heq]; exact Hv. }
  split; [apply hammer_eq_subset|].
  rewrite andb_true_iff, !hammer_eq_subset; split.
  - intros [H1 H2] k; destruct (hammer_get ha k) as [x|] eqn:Ea.
    + symmetry; now apply H2.
    + destruct (hammer_get hb k) as [y|] eqn:Eb; [apply H1 in Eb; congruence | reflexivity].
  - intros Heq; split; intros k v Hv; [rewrite Heq | rewrite <- Heq]; exact Hv.
Qed.

(** X9: a layered map over an empty head table ([HammerMap::default()] and
    the maps inserted into it) behaves like its overlay [Map]: same [get],
    iteration, keys, values, [len], [contains_key], [is_empty] and [==]. *)
Theorem empty_head_is_map (c c2 : Map K V) (k : K) (items : list (K * V)) :
  let hm := HammerMap_ c [] in
  hammer_get hm k = map_get c k /\
  hammer_iter hm = map_iter c /\
  hammer_keys hm = map_keys c /\
  hammer_values hm = map_values c /\
  hammer_len hm = map_len c /\
  hammer_contains_key hm k = map_contains_key c k /\
  hammer_is_empty hm = map_is_empty c /\
  hammer_eq hm (HammerMap_ c2 []) = map_eq c c2 /\
  hammer_insert_many (hammer_new []) items = HammerMap_ (map_from_iter items) [].
Proof.
  intros hm; subst hm.
  assert (Hiter : forall c0 : Map K V, hammer_iter (HammerMap_ c0 []) = map_iter c0).
  { intros c0; unfold hammer_iter; simpl.
    rewrite drain_chain_filter; [apply app_nil_r | apply dedup_nodup | intros ? ? [] | constructor]. }
  split; [unfold hammer_get; simpl; now destruct (map_get c k)|].
  split; [apply Hiter|].
  split; [unfold hammer_keys, map_keys; now rewrite Hiter|].
  split; [unfold hammer_values, map_values; now rewrite Hiter|].
  split; [unfold hammer_len, map_len, hammer_keys, map_keys; now rewrite Hiter|].
  split; [unfold hammer_contains_key, map_contains_key, hammer_keys, map_keys; now rewrite Hiter|].
  split; [unfold hammer_is_empty; simpl; apply andb_true_r|].
  split; [unfold hammer_eq, map_eq; now rewrite !Hiter|].
  reflexivity.
Qed.

Lemma dedup_ext (l : list (K * V)) : forall s s',
  (forall x, In x s <-> In x s') -> dedup s l = dedup s' l.
Proof.
  induction l as [|[k v] t IH]; simpl; intros s s' Hs; [reflexivity|].
  assert (Hc : set_contains s k = set_contains s' k).
  { apply eq_iff_eq_true; rewrite !set_contains_In; apply Hs. }
  rewrite Hc; destruct (set_contains s' k) eqn:E; [now apply IH|].
  f_equal; apply IH; intros x; unfold set_insert; rewrite Hc, E; simpl; rewrite Hs; reflexivity.
Qed.

(** Starting [MapIterator] with [k] already seen drops exactly the pair it
    would have yielded for [k]. *)
Lemma dedup_cons_filter (k : K) (l : list (K * V)) : forall s,
  dedup (k :: s) l = filter (fun kv => negb (eqb (fst kv) k)) (dedup s l).
Proof.
  induction l as [|[k' v'] t IH]; intros s; [reflexivity|].
  cbn [dedup].
  change (set_contains (k :: s) k') with (eqb k' k || set_contains s k').
  case_eqb k' k; cbn [orb].
  - destruct (set_contains s k) eqn:Hc; [apply IH|].
    cbn [filter fst]; rewrite eqb_refl; cbn [negb].
    unfold set_insert; rewrite Hc; rewrite <- IH; apply dedup_ext; simpl; tauto.
  - destruct (set_contains s k') eqn:Hc; [apply IH|].
    cbn [filter fst]; rewrite (proj2 (eqb_false_iff k' k) E); cbn [negb]; f_equal.
    unfold set_insert; rewrite Hc.
    change (set_contains (k :: s) k') with (eqb k' k || set_contains s k').
    rewrite (proj2 (eqb_false_iff k' k) E), Hc; cbn [orb].
    rewrite <- IH; apply dedup_ext; simpl; tauto.
Qed.

Lemma dedup_filter_in (k : K) (a b : list (K * V)) : forall s, In k s ->
  dedup s (filter (fun kv => negb (eqb (fst kv) k)) a ++ b) = dedup s (a ++ b).
Proof.
  induction a as [|[k' v'] t IH]; intros s Hk; [reflexivity|].
  cbn [filter fst app dedup].
  case_eqb k' k.
  - cbn [negb]; rewrite (proj2 (set_contains_In s k) Hk); now apply IH.
  - cbn [negb app dedup].
    destruct (set_contains s k'); [now apply IH|].
    f_equal; apply IH; unfold set_insert; destruct (set_contains s k'); [exact Hk | now right].
Qed.

(** X5: iteration after [insert(k, v)] yields [(k, v)] first, then the
    pairs the map yielded before, in the same order, without the one for
    [k]. *)
Theorem iter_after_insert (m : Map K V) (hm : HammerMap K V) (k : K) (v : V) :
  map_iter (map_insert m k v) = (k, v) :: filter (fun kv => negb (eqb (fst kv) k)) (map_iter m) /\
  hammer_iter (hammer_insert hm k v)
  = (k, v) :: filter (fun kv => negb (eqb (fst kv) k)) (hammer_iter hm).
Proof.
  assert (Hm : forall m0 : Map K V, map_iter (map_insert m0 k v)
            = (k, v) :: filter (fun kv => negb (eqb (fst kv) k)) (map_iter m0)).
  { intros m0; unfold map_iter, map_insert; cbn [entries dedup].
    change (set_contains [] k) with false; cbn.
    f_equal; apply dedup_cons_filter. }
  split; [apply Hm|].
  rewrite !hammer_iter_dedup; cbn [chain hammer_insert]; rewrite Hm.
  cbn [app dedup]; change (set_contains [] k) with false; cbn [set_insert].
  change (set_contains [] k) with false; cbn.
  f_equal; rewrite dedup_filter_in by (now left); apply dedup_cons_filter.
Qed.

End MapExtras.

Section ListExtras.
Context {T : Type}.

Lemma fold_push_iter (xs : list T) : forall (h : Heap T) (l : List),
  heap_wf h -> ptr_valid h (cons l) ->
  let r := fold_left (fun '(h, l) x => push_front h l x) xs (h, l) in
  list_iter (fst r) (snd r) = rev xs ++ list_iter h l /\
  (forall l0, ptr_valid h (cons l0) -> list_iter (fst r) l0 = list_iter h l0).
Proof.
  induction xs as [|x xs IH]; intros h l Hwf Hv; [simpl; auto|].
  cbn [fold_left].
  change (let '(h0, l0) := (h, l) in push_front h0 l0 x) with (push_front h l x).
  assert (Hwf' := wf_push h l x Hwf Hv).
  assert (Hv' : ptr_valid (fst (push_front h l x)) (cons (snd (push_front h l x))))
    by (simpl; rewrite length_app; simpl; lia).
  assert (Hnew := iter_push_new h l x Hwf Hv).
  assert (Hold : forall l0, ptr_valid h (cons l0) ->
            list_iter (fst (push_front h l x)) l0 = list_iter h l0)
    by (intros l0 Hl0; now apply iter_push_old).
  assert (Hval : forall l0, ptr_valid h (cons l0) -> ptr_valid (fst (push_front h l x)) (cons l0))
    by (intros l0; apply valid_push).
  destruct (push_front h l x) as [h1 l1]; simpl in *.
  destruct (IH h1 l1 Hwf' Hv') as [H1 H2]; split.
  - rewrite H1, Hnew, <- app_assoc; reflexivity.
  - intros l0 Hl0; rewrite H2 by auto; auto.
Qed.

(** X10: [pop_front] undoes [push_front]: popping the handle [push_front]
    returned gives back the original handle, same cell and same [size]. *)
Theorem pop_front_push_front (h : Heap T) (l : List) (x : T) :
  pop_front (fst (push_front h l x)) (snd (push_front h l x)) = Ok l.
Proof.
  unfold pop_front, push_front; cbn [fst snd cons size].
  rewrite nth_error_app2, Nat.sub_diag by lia; cbn [nth_error cons_tail].
  unfold usize_sub; rewrite (proj2 (Nat.leb_le 1 (size l + 1))) by lia.
  cbn [bind]; rewrite Nat.add_sub; now destruct l.
Qed.

(** X11: [push_front_many(xs)] puts the items in front of the list, last
    item first, adds [length xs] to [size], keeps the size invariant, and
    leaves every existing handle reading as before. *)
Theorem push_front_many_prepends (h : Heap T) (l : List) (xs : list T)
  (Hwf : heap_wf h) (Hl : list_inv h l) :
  let r := push_front_many h l xs in
  list_iter (fst r) (snd r) = rev xs ++ list_iter h l /\
  size (snd r) = length xs + size l /\
  list_inv (fst r) (snd r) /\
  (forall l0, ptr_valid h (cons l0) -> list_iter (fst r) l0 = list_iter h l0).
Proof.
  intros r; subst r; unfold push_front_many; pose proof Hl as [Hv Hs].
  destruct (fold_push_iter xs h (list_clone l) Hwf Hv) as [Hi Ho].
  destruct (fold_push_preserves xs h [] (list_clone l) Hwf (Forall_nil _)) as [_ [_ Hinv]];
    [destruct l; exact Hl|].
  assert (Hc : list_iter h (list_clone l) = list_iter h l) by reflexivity.
  rewrite Hc in Hi; split; [exact Hi|]; split; [|split; [exact Hinv | exact Ho]].
  destruct Hinv as [_ Hs']; rewrite Hs', Hi, length_app, length_rev, Hs; reflexivity.
Qed.

(** X12: [List::from_iter(xs)] is [push_front_many(xs)] on [List::new()]: it
    holds the items last first, its [len] is the number of items, and its
    [size] invariant holds. *)
Theorem from_iter_reverses (h : Heap T) (xs : list T) (Hwf : heap_wf h) :
  let r := list_from_iter h xs in
  r = push_front_many h list_new xs /\
  list_iter (fst r) (snd r) = rev xs /\
  list_len (snd r) = length xs /\
  list_inv (fst r) (snd r).
Proof.
  intros r.
  assert (Hr : r = push_front_many h list_new xs) by reflexivity.
  destruct (push_front_many_prepends h list_new xs Hwf (list_new_inv h)) as [Hi [Hs [Hinv _]]].
  rewrite <- Hr in Hi, Hs, Hinv.
  split; [exact Hr|]; split; [rewrite Hi; unfold list_iter; destruct (length h); apply app_nil_r|].
  split; [unfold list_len; rewrite Hs; simpl; lia | exact Hinv].
Qed.

(** X13: [contains] on a handle returned by [push_front(x)] finds [x] and
    everything the old list contains; [contains] is membership in what the
    list iterator yields. *)
Theorem contains_after_push `{EqDec T} (h : Heap T) (l : List) (x y : T)
  (Hwf : heap_wf h) (Hv : ptr_valid h (cons l)) :
  list_contains (fst (push_front h l x)) (snd (push_front h l x)) y
    = eqb x y || list_contains h l y /\
  (list_contains h l y = true <-> In y (list_iter h l)).
Proof.
  split; [|apply existsb_eqb_In].
  unfold list_contains; rewrite iter_push_new by assumption; reflexivity.
Qed.

Lemma cons_eqb_read `{EqDec T} (h : Heap T) (Hwf : heap_wf h) : forall f p q,
  (forall i, p = Some i -> i < f /\ i < length h) ->
  (forall i, q = Some i -> i < f /\ i < length h) ->
  (cons_eqb f h p q = true <-> read f h p = read f h q).
Proof.
  induction f as [|f IH]; intros [i|] [j|] Hp Hq.
  - destruct (Hp i eq_refl); lia.
  - destruct (Hp i eq_refl); lia.
  - destruct (Hq j eq_refl); lia.
  - simpl; tauto.
  - destruct (Hp i eq_refl) as [Hfi Hi], (Hq j eq_refl) as [Hfj Hj].
    destruct (nth_error h i) as [c|] eqn:Hc; [|apply nth_error_None in Hc; lia].
    destruct (nth_error h j) as [d|] eqn:Hd; [|apply nth_error_None in Hd; lia].
    simpl; rewrite Hc, Hd, andb_true_iff, eqb_true.
    rewrite IH.
    + split; [intros [-> ->]; reflexivity | intros E; injection E as E1 E2; auto].
    + intros i' Ht; pose proof (Hwf _ _ _ Hc Ht); split; lia.
    + intros j' Ht; pose proof (Hwf _ _ _ Hd Ht); split; lia.
  - destruct (Hp i eq_refl) as [_ Hi].
    destruct (nth_error h i) as [c|] eqn:Hc; [|apply nth_error_None in Hc; lia].
    simpl; rewrite Hc; split; discriminate.
  - destruct (Hq j eq_refl) as [_ Hj].
    destruct (nth_error h j) as [d|] eqn:Hd; [|apply nth_error_None in Hd; lia].
    simpl; rewrite Hd; split; discriminate.
  - simpl; tauto.
Qed.

Lemma cons_cmp_read (cmpT : T -> T -> comparison) (h : Heap T) (Hwf : heap_wf h) : forall f p q,
  (forall i, p = Some i -> i < f /\ i < length h) ->
  (forall i, q = Some i -> i < f /\ i < length h) ->
  cons_cmp cmpT f h p q = lex_cmp cmpT (read f h p) (read f h q).
Proof.
  induction f as [|f IH]; intros [i|] [j|] Hp Hq.
  - destruct (Hp i eq_refl); lia.
  - destruct (Hp i eq_refl); lia.
  - destruct (Hq j eq_refl); lia.
  - reflexivity.
  - destruct (Hp i eq_refl) as [Hfi Hi], (Hq j eq_refl) as [Hfj Hj].
    destruct (nth_error h i) as [c|] eqn:Hc; [|apply nth_error_None in Hc; lia].
    destruct (nth_error h j) as [d|] eqn:Hd; [|apply nth_error_None in Hd; lia].
    simpl; rewrite Hc, Hd; simpl.
    destruct (cmpT (cons_head c) (cons_head d)); [|reflexivity | reflexivity].
    apply IH.
    + intros i' Ht; pose proof (Hwf _ _ _ Hc Ht); split; lia.
    + intros j' Ht; pose proof (Hwf _ _ _ Hd Ht); split; lia.
  - destruct (Hp i eq_refl) as [_ Hi].
    destruct (nth_error h i) as [c|] eqn:Hc; [|apply nth_error_None in Hc; lia].
    simpl; rewrite Hc; reflexivity.
  - destruct (Hq j eq_refl) as [_ Hj].
    destruct (nth_error h j) as [d|] eqn:Hd; [|apply nth_error_None in Hd; lia].
    simpl; rewrite Hd; reflexivity.
  - reflexivity.
Qed.

Lemma lex_cmp_eq_length (cmpT : T -> T -> comparison) (a b : list T) :
  lex_cmp cmpT a b = Eq -> length a = length b.
Proof.
  revert b; induction a as [|x a IH]; intros [|y b]; simpl; try discriminate; auto.
  destruct (cmpT x y); try discriminate; auto.
Qed.

Lemma handle_bound (h : Heap T) (l : List) :
  ptr_valid h (cons l) -> forall i, cons l = Some i -> i < length h /\ i < length h.
Proof. intros Hv i Hi; rewrite Hi in Hv; simpl in Hv; lia. Qed.

(** X14: the derived [==] on lists compares contents, not cells: two handles
    the program built are equal exactly when their iterators yield the same
    items, shared cells or not. *)
Theorem list_eq_is_elementwise `{EqDec T} (h : Heap T) (l1 l2 : List)
  (Hwf : heap_wf h) (H1 : list_inv h l1) (H2 : list_inv h l2) :
  list_eqb h l1 l2 = true <-> list_iter h l1 = list_iter h l2.
Proof.
  pose proof H1 as [Hv1 Hs1]; pose proof H2 as [Hv2 Hs2].
  unfold list_eqb; rewrite andb_true_iff, Nat.eqb_eq.
  rewrite cons_eqb_read by (assumption || now apply handle_bound).
  rewrite Hs1, Hs2; unfold list_iter.
  split; [tauto | intros E; rewrite E; auto].
Qed.

(** X15: the derived order on lists is the lexicographic order of their items
    from the front, a proper prefix first ([new()] before any non-empty
    list); [size] never decides it. *)
Theorem list_cmp_is_lexicographic (cmpT : T -> T -> comparison) (h : Heap T) (l1 l2 : List)
  (Hwf : heap_wf h) (H1 : list_inv h l1) (H2 : list_inv h l2) :
  list_cmp cmpT h l1 l2 = lex_cmp cmpT (list_iter h l1) (list_iter h l2).
Proof.
  pose proof H1 as [Hv1 Hs1]; pose proof H2 as [Hv2 Hs2].
  unfold list_cmp; rewrite cons_cmp_read by (assumption || now apply handle_bound).
  fold (list_iter h l1) (list_iter h l2).
  destruct (lex_cmp cmpT (list_iter h l1) (list_iter h l2)) eqn:E; try reflexivity.
  apply lex_cmp_eq_length in E; rewrite Hs1, Hs2, E; apply Nat.compare_refl.
Qed.

End ListExtras.

(** ** Witnesses *)

Lemma empty_heap_wf : heap_wf ([] : Heap nat).
Proof. intros [|i] c j Hc; discriminate. Qed.

Lemma reachable_ord :
  reachable (fst iterF) [snd iterF; snd iterE; snd ordD; snd ordC; snd ordB; snd ordA; list_new].
Proof.
  unfold iterF; apply reach_push; [|simpl; auto 10].
  unfold iterE; apply reach_from_iter.
  unfold ordD; apply reach_push; [|simpl; auto 10].
  unfold ordC; apply reach_push; [|simpl; auto 10].
  unfold ordB; apply reach_push; [|simpl; auto 10].
  unfold ordA; apply reach_push; [|simpl; auto 10].
  apply reach_new, reach_init.
Qed.

Lemma push_front_many_prepends_witness :
  list_iter (fst (push_front_many (fst ordA) (snd ordA) [2; 3])) (snd (push_front_many (fst ordA) (snd ordA) [2; 3]))
  = [3; 2; 1].
Proof.
  assert (Hwf : heap_wf (fst ordA)).
  { intros [|i] c j Hc Ht; [injection Hc as <-; discriminate | destruct i; discriminate]. }
  assert (Hl : list_inv (fst ordA) (snd ordA)) by (split; [simpl; lia | reflexivity]).
  destruct (push_front_many_prepends (fst ordA) (snd ordA) [2; 3] Hwf Hl) as [Hi _].
  rewrite Hi; reflexivity.
Defined.

Lemma from_iter_reverses_witness :
  list_iter (fst (list_from_iter ([] : Heap nat) [1; 2])) (snd (list_from_iter ([] : Heap nat) [1; 2]))
  = [2; 1].
Proof.
  destruct (from_iter_reverses ([] : Heap nat) [1; 2] empty_heap_wf) as [_ [Hi _]].
  exact Hi.
Defined.

Lemma contains_after_push_witness :
  list_contains (fst (push_front (fst ordA) (snd ordA) 2)) (snd (push_front (fst ordA) (snd ordA) 2)) 1
  = true.
Proof.
  assert (Hwf : heap_wf (fst ordA)).
  { intros [|i] c j Hc Ht; [injection Hc as <-; discriminate | destruct i; discriminate]. }
  assert (Hv : ptr_valid (fst ordA) (cons (snd ordA))) by (simpl; lia).
  destruct (contains_after_push (fst ordA) (snd ordA) 2 1 Hwf Hv) as [Hc _].
  rewrite Hc; reflexivity.
Defined.

Lemma list_eq_is_elementwise_witness :
  list_eqb (fst iterF) (snd iterE) (snd iterF) = true.
Proof.
  destruct (reachable_inv _ _ reachable_ord) as [Hwf Hls]; rewrite Forall_forall in Hls.
  apply (list_eq_is_elementwise (fst iterF) (snd iterE) (snd iterF) Hwf);
    [apply Hls; simpl; auto 10 | apply Hls; simpl; auto 10 | vm_compute; reflexivity].
Defined.

Lemma list_cmp_is_lexicographic_witness :
  list_cmp Nat.compare (fst iterF) (snd ordC) (snd ordD) = Lt.
Proof.
  destruct (reachable_inv _ _ reachable_ord) as [Hwf Hls]; rewrite Forall_forall in Hls.
  rewrite (list_cmp_is_lexicographic Nat.compare (fst iterF) (snd ordC) (snd ordD) Hwf);
    [vm_compute; reflexivity | apply Hls; simpl; auto 10 | apply Hls; simpl; auto 10].
Defined.
